(** * rqlite: restore downloader and 7.x snapshot upgrade

    A shallow embedding of two Go files of rqlite,

    - [auto/restore/downloader.go]: [Downloader.Do], [countingWriterAt.WriteAt],
      [isGzip], the [stats] map;
    - the snapshot upgrade file of package [snapshot]: [Upgrade],
      [getNewest7Snapshot], [dirIsEmpty], [raftMetaSlice];

    followed by the properties proved about them.  Go's standard library and
    the helpers of package [snapshot] that the two files call are modelled
    next to the code that uses them, each with a comment that says what it
    stands for. *)

From Stdlib Require Import ZArith Lia.
From Stdlib.Strings Require Import Byte.
From stdpp Require Import gmap strings list fin_maps sorting lexico.

Local Open Scope Z_scope.

(** ** Go values shared by both packages *)

(** A [[]byte]. *)
Abbreviation bytes := (list byte).

#[global] Instance byte_eq_dec : EqDecision byte := Byte.byte_eq_dec.

(** Go's [error] values that the two files create or pass on.  [Errorf] is
    [fmt.Errorf] with a message and the error it formats into it. *)
Inductive error : Type :=
| EOF                                   (* io.EOF *)
| ErrUnexpectedEOF                      (* io.ErrUnexpectedEOF *)
| ErrHeader                             (* gzip.ErrHeader *)
| ErrChecksum                           (* gzip.ErrChecksum *)
| ErrCorrupt                            (* flate.CorruptInputError *)
| ErrCreateTemp                         (* os.CreateTemp gave up *)
| ErrNegativeOffset                     (* os.File.WriteAt, off < 0 *)
| ErrShortWrite                         (* the destination refused bytes *)
| ErrNotExist                           (* ENOENT *)
| ErrExist                              (* EEXIST *)
| ErrNotDir                             (* ENOTDIR *)
| ErrIsDir                              (* EISDIR *)
| ErrInvalid                            (* EINVAL *)
| ErrSyntax                             (* encoding/json could not decode *)
| ErrClient (msg : string)              (* whatever a StorageClient reports *)
| ErrText (msg : string)                (* fmt.Errorf of a message alone *)
| Errorf (msg : string) (cause : error).

(** [int64] arithmetic: the value of a sum after wrap-around. *)
Definition wrap64 (z : Z) : Z := (z + 2 ^ 63) mod 2 ^ 64 - 2 ^ 63.

(** What [compress/gzip] makes of a byte stream: [gzip.NewReader] either
    rejects the header, or returns a reader that delivers [out] and then
    ends with [io.EOF] ([None]) or with an error. *)
Inductive gzipStream : Type :=
| GzHeaderError (e : error)
| GzReader (out : bytes) (err : option error).

(** The decoder of [compress/gzip], a library outside the repository: the
    code is verified against any decoder. *)
Class Gzip : Type := gzip_NewReader : bytes → gzipStream.

(** An [io.Writer] as the caller of [Do] hands it in: the bytes it holds,
    and how many more it accepts before its [Write] fails ([None]: it never
    fails). *)
Record Writer : Type := mkWriter { written : bytes; room : option nat }.

Definition Writer_Write (w : Writer) (p : bytes) : option error * Writer :=
  match room w with
  | None => (None, mkWriter (written w ++ p) None)
  | Some k =>
      if decide (length p ≤ k)%nat
      then (None, mkWriter (written w ++ p) (Some (k - length p)%nat))
      else (Some ErrShortWrite, mkWriter (written w ++ take k p) (Some 0%nat))
  end.

(** [io.Copy(dst, src)] for a source that delivers [out] and then ends with
    [rerr] ([None] is [io.EOF], which [io.Copy] does not report).  A write
    error stops the copy before the source's own error is seen. *)
Definition io_Copy (dst : Writer) (out : bytes) (rerr : option error)
  : option error * Writer :=
  let '(werr, dst') := Writer_Write dst out in
  (match werr with Some e => Some e | None => rerr end, dst').

Module restore.

(** *** The stats map *)

Definition numDownloadsOK : string := "num_downloads_ok".
Definition numDownloadsFail : string := "num_downloads_fail".
Definition numDownloadBytes : string := "download_bytes".

(** [expvar.Map.Add]: the entry is created at zero when it is missing, and
    an [expvar.Int] is an [int64]. *)
Definition stats_Add (key : string) (delta : Z) (m : gmap string Z)
  : gmap string Z :=
  <[key := wrap64 (default 0 (m !! key) + delta)]> m.

(** [ResetStats]: [stats.Init()] empties the map. *)
Definition ResetStats (_ : gmap string Z) : gmap string Z :=
  stats_Add numDownloadBytes 0
    (stats_Add numDownloadsFail 0 (stats_Add numDownloadsOK 0 ∅)).

(** The value an observer reads from a counter. *)
Definition counter (m : gmap string Z) (key : string) : Z :=
  default 0 (m !! key).

(** *** The staging file *)

(** What [Do] runs in: the directory of temporary files and the package
    variable [stats]. *)
Record State : Type := mkState { fs : gmap string bytes; stats : gmap string Z }.

(** [os.CreateTemp("", "rqlite-downloader")].  The name is the system's
    choice ([pick]; [None] when it fails); it never hands out a name in use. *)
Definition os_CreateTemp (pick : option string) (dir : gmap string bytes)
  : error + string * gmap string bytes :=
  match pick with
  | None => inl ErrCreateTemp
  | Some name =>
      match dir !! name with
      | Some _ => inl ErrCreateTemp
      | None => inr (name, <[name := []]> dir)
      end
  end.

(** [os.Remove]; [Do] defers it and drops its result. *)
Definition os_Remove (name : string) (dir : gmap string bytes)
  : gmap string bytes := delete name dir.

(** [pwrite(2)]: [p] lands at [off]; a gap past the end reads as zeros. *)
Definition pwrite (data p : bytes) (off : nat) : bytes :=
  take off data ++ replicate (off - length data) x00 ++ p
    ++ drop (off + length p) data.

(** [os.File.WriteAt] on the staging file [name]. *)
Definition File_WriteAt (name : string) (p : bytes) (off : Z)
    (dir : gmap string bytes) : Z * option error * gmap string bytes :=
  if off <? 0 then (0, Some ErrNegativeOffset, dir)
  else match p with
       | [] => (0, None, dir)
       | _ => (Z.of_nat (length p), None,
               <[name := pwrite (default [] (dir !! name)) p (Z.to_nat off)]> dir)
       end.

Record countingWriterAt : Type := mkCW { writerAt : string; count : Z }.

Definition countingWriterAt_WriteAt (c : countingWriterAt) (p : bytes) (off : Z)
    (dir : gmap string bytes)
  : Z * option error * countingWriterAt * gmap string bytes :=
  let '(n, err, dir') := File_WriteAt (writerAt c) p off dir in
  (n, err, mkCW (writerAt c) (wrap64 (count c + n)), dir').

(** A [StorageClient]'s [Download]: it can do nothing with the writer but
    call [WriteAt], look at what each call returns, and in the end return
    an error or nil.  An expired deadline is one of its errors. *)
Inductive Download : Type :=
| Return (err : option error)
| WriteAt (p : bytes) (off : Z) (next : Z → option error → Download).

Fixpoint run_Download (d : Download) (cw : countingWriterAt)
    (dir : gmap string bytes)
  : option error * countingWriterAt * gmap string bytes :=
  match d with
  | Return err => (err, cw, dir)
  | WriteAt p off next =>
      let '(n, err, cw', dir') := countingWriterAt_WriteAt cw p off dir in
      run_Download (next n err) cw' dir'
  end.

(** The byte counts the file's own [WriteAt] returned during a download. *)
Fixpoint write_results (d : Download) (name : string) (dir : gmap string bytes)
  : list Z :=
  match d with
  | Return _ => []
  | WriteAt p off next =>
      let '(n, err, dir') := File_WriteAt name p off dir in
      n :: write_results (next n err) name dir'
  end.

(** *** isGzip *)

Definition gzipMagic : bytes := [x1f; x8b; x08].

(** An [io.ReadSeeker] over a file: its content and the read position. *)
Record ReadSeeker : Type := mkRS { rs_data : bytes; rs_pos : nat }.

(** [f.Seek(0, io.SeekStart)] *)
Definition Seek_start (f : ReadSeeker) : ReadSeeker := mkRS (rs_data f) 0.

(** [f.Read(buf)] with [len(buf) = n] on a regular file: what is left, up to
    [n] bytes; [io.EOF] when nothing is left. *)
Definition Read (f : ReadSeeker) (n : nat)
  : bytes * option error * ReadSeeker :=
  let rest := drop (rs_pos f) (rs_data f) in
  match n, rest with
  | O, _ => ([], None, f)
  | _, [] => ([], Some EOF, f)
  | _, _ => (take n rest, None,
             mkRS (rs_data f) (rs_pos f + length (take n rest)))
  end.

(** What a reader that starts at the read position still delivers. *)
Definition unread (f : ReadSeeker) : bytes := drop (rs_pos f) (rs_data f).

Definition isGzip (f : ReadSeeker) : bool * option error * ReadSeeker :=
  let f := Seek_start f in
  let '(data, err, f) := Read f (length gzipMagic) in
  match err with
  | Some e => (false, Some e, f)
  | None =>
      if negb (length data =? length gzipMagic)%nat then (false, None, f)
      else
        let f := Seek_start f in
        (bool_decide (gzipMagic = take (length gzipMagic) data), None, f)
  end.

(** *** Downloader.Do *)

(** The deferred closure of [Do]. *)
Definition Do_deferred (err : option error) (cw : option countingWriterAt)
    (st : gmap string Z) : gmap string Z :=
  match err with
  | None =>
      let st := stats_Add numDownloadsOK 1 st in
      match cw with
      | Some c => stats_Add numDownloadBytes (count c) st
      | None => st
      end
  | Some _ => stats_Add numDownloadsFail 1 st
  end.

(** [Do] from the download on, with the staging file [name] open. *)
Definition Do_staged `{Gzip} (client : Download) (w : Writer) (name : string)
    (dir : gmap string bytes)
  : option error * countingWriterAt * Writer * gmap string bytes :=
  let cw := mkCW name 0 in
  let '(err, cw, dir) := run_Download client cw dir in
  match err with
  | Some e => (Some e, cw, w, dir)
  | None =>
      let f := mkRS (default [] (dir !! name)) 0 in
      let '(compressed, err, f) := isGzip f in
      match err with
      | Some e => (Some e, cw, w, dir)
      | None =>
          if compressed then
            match gzip_NewReader (unread f) with
            | GzHeaderError e => (Some e, cw, w, dir)
            | GzReader out rerr =>
                let '(err, w) := io_Copy w out rerr in
                match err with
                | Some e =>
                    (Some (Errorf "failed to decompress data" e), cw, w, dir)
                | None => (None, cw, w, dir)
                end
            end
          else
            let '(err, w) := io_Copy w (unread f) None in
            match err with
            | Some e => (Some (Errorf "failed to write data" e), cw, w, dir)
            | None => (None, cw, w, dir)
            end
      end
  end.

Definition Do `{Gzip} (client : Download) (w : Writer) (pick : option string)
    (s : State) : option error * Writer * State :=
  let '(err, cw, w, dir) :=
    match os_CreateTemp pick (fs s) with
    | inl e => (Some e, None, w, fs s)
    | inr (name, dir) =>
        let '(err, cw, w, dir) := Do_staged client w name dir in
        (err, Some cw, w, os_Remove name dir)
    end in
  (err, w, mkState dir (Do_deferred err cw (stats s))).

(** The number of bytes that went into the staging file during one call of
    [Do]: the sum of what the file's [WriteAt] returned. *)
Definition bytes_written (client : Download) (pick : option string) (s : State)
  : Z :=
  match os_CreateTemp pick (fs s) with
  | inl _ => 0
  | inr (name, dir) => foldr Z.add 0 (write_results client name dir)
  end.

End restore.

Module snapshot.

(** *** The file system *)

(** A clean absolute path, by its components. *)
Abbreviation path := (list string).

Inductive node : Type :=
| File (data : bytes)
| Dir.

#[global] Instance node_eq_dec : EqDecision node.
Proof. solve_decision. Defined.

(** The tree as the map from the paths in use to what is there; the root
    directory is the entry at [[]].  There are no permissions, links or
    device faults: an operation fails only for what its arguments and the
    tree say.  The components of a path in use are file names, for which
    [filepath.Join] is appending. *)
Abbreviation FS := (gmap path node).

Definition parent (p : path) : path := take (length p - 1) p.

(** [os.RemoveAll]: the entry and all below it; nil when there is none. *)
Definition os_RemoveAll (p : path) (fs : FS) : FS :=
  filter (λ kv, ¬ p `prefix_of` kv.1) fs.

(** The entry of the directory [p] that the binding [kv] stands for. *)
Definition child_of (p : path) (kv : path * node) : option (string * node) :=
  match reverse kv.1 with
  | name :: rp => if decide (reverse rp = p) then Some (name, kv.2) else None
  | [] => None
  end.

Definition by_name : relation (string * node) := λ a b, String.le a.1 b.1.

#[global] Instance by_name_dec : RelDecision by_name.
Proof. intros a b. unfold by_name. apply _. Defined.

(** The error for a path that is not in the tree.  The components are
    resolved from [at_] on: a component looked up in a regular file is
    ENOTDIR, a missing component is ENOENT. *)
Fixpoint missing (fs : FS) (at_ : path) (rest : list string) : error :=
  match rest with
  | [] => ErrNotExist
  | c :: rest =>
      match fs !! at_ with
      | Some (File _) => ErrNotDir
      | Some Dir => missing fs (at_ ++ [c]) rest
      | None => ErrNotExist
      end
  end.

(** [os.ReadDir]: the entries of a directory, sorted by file name. *)
Definition os_ReadDir (p : path) (fs : FS) : error + list (string * node) :=
  match fs !! p with
  | None => inl (missing fs [] p)
  | Some (File _) => inl ErrNotDir
  | Some Dir => inr (merge_sort by_name (omap (child_of p) (map_to_list fs)))
  end.

(** [os.MkdirAll], on the reversed path: nothing to do at a directory, an
    error at a file, and otherwise the parent first, then [Mkdir]. *)
Fixpoint MkdirAll_up (rp : list string) (fs : FS) : option error * FS :=
  match fs !! reverse rp with
  | Some Dir => (None, fs)
  | Some (File _) => (Some ErrNotDir, fs)
  | None =>
      match rp with
      | [] => (None, <[reverse rp := Dir]> fs)
      | _ :: up =>
          match MkdirAll_up up fs with
          | (Some e, fs) => (Some e, fs)
          | (None, fs) => (None, <[reverse rp := Dir]> fs)
          end
      end
  end.

Definition os_MkdirAll (p : path) (fs : FS) : option error * FS :=
  MkdirAll_up (reverse p) fs.

(** [os.Create]: a new or truncated regular file in an existing directory. *)
Definition os_Create (p : path) (fs : FS) : option error * FS :=
  match fs !! p with
  | Some Dir => (Some ErrIsDir, fs)
  | _ =>
      match p, fs !! parent p with
      | _ :: _, Some Dir => (None, <[p := File []]> fs)
      | _ :: _, Some (File _) => (Some ErrNotDir, fs)
      | _, _ => (Some (missing fs [] p), fs)
      end
  end.

(** [os.Open]: Go opens directories too; reading one is what fails. *)
Definition os_Open (p : path) (fs : FS) : error + node :=
  match fs !! p with
  | None => inl (missing fs [] p)
  | Some n => inr n
  end.

(** Two paths neither of which lies at or below the other. *)
Definition apart (p q : path) : Prop := ¬ p `prefix_of` q ∧ ¬ q `prefix_of` p.

(** Where a rename of [p] to [q] puts the path [k] (and, the other way
    round, where it comes from). *)
Definition rekey (p q k : path) : path :=
  if decide (apart p q) then
    if decide (p `prefix_of` k) then q ++ drop (length p) k
    else if decide (q `prefix_of` k) then p ++ drop (length q) k
    else k
  else k.

Lemma rekey_involutive p q k : rekey p q (rekey p q k) = k.
Proof.
  unfold rekey. destruct (decide (apart p q)) as [[Hpq Hqp]|]; [|done].
  destruct (decide (p `prefix_of` k)) as [[s ->]|Hpk].
  - rewrite drop_app_length.
    rewrite decide_False; [|intros [t Ht]].
    + rewrite decide_True by (by eexists). by rewrite drop_app_length.
    + apply Hpq. destruct (prefix_weak_total p q (q ++ s)) as [|]; try done.
      * by eexists.
      * by eexists.
  - destruct (decide (q `prefix_of` k)) as [[s ->]|Hqk].
    + rewrite drop_app_length. rewrite decide_True by (by eexists).
      by rewrite drop_app_length.
    + by rewrite !decide_False.
Qed.

#[global] Instance rekey_inj p q : Inj (=) (=) (rekey p q).
Proof.
  intros k1 k2 Hk. rewrite <-(rekey_involutive p q k1), Hk.
  apply rekey_involutive.
Qed.

(** [os.Rename] of [p] to the free name [q].  Go refuses a directory in
    the way, [rename(2)] a file in the way of a directory and a
    destination inside the source. *)
Definition os_Rename (p q : path) (fs : FS) : option error * FS :=
  match fs !! p with
  | None => (Some (missing fs [] p), fs)
  | Some _ =>
      if decide (apart p q) then
        if decide (map_Forall (λ k _, ¬ q `prefix_of` k) fs) then
          match fs !! parent q with
          | Some Dir => (None, kmap (rekey p q) fs)
          | Some (File _) => (Some ErrNotDir, fs)
          | None => (Some (missing fs [] q), fs)
          end
        else (Some ErrExist, fs)
      else (Some ErrInvalid, fs)
  end.

(** *** filepath.Join *)

(** The elements of a path string: what lies between its separators. *)
Fixpoint elements (s : string) : list string :=
  match s with
  | EmptyString => [EmptyString]
  | String c s =>
      if decide (String c EmptyString = "/") then EmptyString :: elements s
      else match elements s with
           | e :: es => String c e :: es
           | [] => [String c EmptyString]
           end
  end.

(** One element applied to a clean absolute path, as [filepath.Clean]
    does: an empty element and "." change nothing, ".." removes the last
    component (the root is its own parent), and any other element is
    appended. *)
Definition enter (p : path) (c : string) : path :=
  if decide (c = EmptyString) then p
  else if decide (c = ".") then p
  else if decide (c = "..") then parent p
  else p ++ [c].

(** [filepath.Join(p, elems...)] for a clean absolute [p]: the elements
    are joined with the separator "/" and the result is cleaned. *)
Definition filepath_Join (p : path) (elems : list string) : path :=
  foldl enter p (elems ≫= elements).

(** *** Package snapshot *)

(** [raft.SnapshotMeta] (hashicorp/raft); [Term] and [Index] are [uint64],
    a server of the configuration is its suffrage, ID and address. *)
Record SnapshotMeta : Type := mkSnapshotMeta {
  Version : Z;
  ID : string;
  Index : N;
  Term : N;
  Peers : bytes;
  Configuration : list (Z * string * string);
  ConfigurationIndex : N;
  Size : Z
}.

(** Modelled from the spec: the type [Meta] of the new format is not in the
    given sources; it embeds all legacy metadata fields and adds the flag
    that marks a full snapshot. *)
Record Meta : Type := mkMeta { Meta_SnapshotMeta : SnapshotMeta; Full : bool }.

Definition v7StateFile : string := "state.bin".

(** Modelled from the spec: the constants of package [snapshot] that the
    given sources use and do not declare: the reserved suffix of the
    temporary root ([tmpName]), the generations container, the first
    generation, and the fixed names of the base state file and of a
    metadata file. *)
Class Layout : Type := {
  tmpSuffix : string;
  generationsDir : string;
  firstGeneration : string;
  baseSqliteFile : string;
  metaFileName : string
}.

(** What the file calls outside the repository, and [db.IsValidSQLiteFile]
    on the content of a file: [encoding/json] on a legacy metadata file
    ([None]: it does not decode) and on a [Meta], and [sort.Sort] on a
    [raftMetaSlice], given its [Less]. *)
Class Library : Type := {
  json_Decode : bytes → option SnapshotMeta;
  json_Encode : Meta → bytes;
  IsValidSQLite : bytes → bool;
  sort_Sort : (SnapshotMeta → SnapshotMeta → bool) → list SnapshotMeta → list SnapshotMeta
}.

Section package.
Context `{Layout, Library, Gzip}.

(** Modelled from the spec: [tmpName] is not in the given sources; the
    temporary new root is the same path as [newRoot] with the reserved
    suffix. *)
Fixpoint tmpName (p : path) : path :=
  match p with
  | [] => [tmpSuffix]
  | [x] => [x +:+ tmpSuffix]
  | x :: p => x :: tmpName p
  end.

(** Modelled from the spec: [dirExists] is not in the given sources; whether
    the path exists as a directory. *)
Definition dirExists (p : path) (fs : FS) : bool :=
  bool_decide (fs !! p = Some Dir).

(** Modelled from the spec: [fileExists] is not in the given sources;
    whether there is anything at the path. *)
Definition fileExists (p : path) (fs : FS) : bool :=
  bool_decide (is_Some (fs !! p)).

(** Modelled from the spec: [writeMeta] is not in the given sources; it
    writes the metadata file of a snapshot directory, a JSON document of the
    [Meta]. *)
Definition writeMeta (dir : path) (meta : Meta) (fs : FS) : option error * FS :=
  match os_Create (dir ++ [metaFileName]) fs with
  | (Some e, fs) => (Some e, fs)
  | (None, fs) => (None, <[dir ++ [metaFileName] := File (json_Encode meta)]> fs)
  end.

(** Modelled from the spec: [db.IsValidSQLiteFile] is not in the given
    sources; given a file path, whether its contents are a structurally
    valid database file. *)
Definition IsValidSQLiteFile (p : path) (fs : FS) : bool :=
  match fs !! p with
  | Some (File data) => IsValidSQLite data
  | _ => false
  end.

(** Modelled from the spec: [syncDirParentMaybe] is not in the given
    sources; it fsyncs the parent directory where the platform supports it,
    which changes nothing in a tree without crashes. *)
Definition syncDirParentMaybe (p : path) (fs : FS) : option error * FS :=
  (None, fs).

(** Modelled from the spec: [removeDirSync] is not in the given sources; it
    removes the directory entirely and fsyncs the parent afterwards. *)
Definition removeDirSync (p : path) (fs : FS) : option error * FS :=
  syncDirParentMaybe p (os_RemoveAll p fs).

(** *** raftMetaSlice *)

Definition Less (a b : SnapshotMeta) : bool :=
  if negb (Term a =? Term b)%N then (Term a <? Term b)%N
  else if negb (Index a =? Index b)%N then (Index a <? Index b)%N
  else String.ltb (ID a) (ID b).

Definition Newest (s : list SnapshotMeta) : option SnapshotMeta :=
  if (length s =? 0)%nat then None
  else last (sort_Sort Less s).

(** *** getNewest7Snapshot *)

(** The [json.NewDecoder(fh).Decode(meta)] of an opened metadata file. *)
Definition decode_meta (fh : node) : error + SnapshotMeta :=
  match fh with
  | Dir => inl ErrIsDir
  | File data =>
      match json_Decode data with
      | Some meta => inr meta
      | None => inl ErrSyntax
      end
  end.

(** The loop over the entries of [dir]. *)
Fixpoint scan_entries (dir : path) (entries : list (string * node)) (fs : FS)
    (snapshots : list SnapshotMeta) : error + list SnapshotMeta :=
  match entries with
  | [] => inr snapshots
  | (name, entry) :: entries =>
      match entry with
      | File _ => scan_entries dir entries fs snapshots
      | Dir =>
          let metaPath := dir ++ [name; metaFileName] in
          if negb (fileExists metaPath fs)
          then scan_entries dir entries fs snapshots
          else
            match os_Open metaPath fs with
            | inl e => inl e
            | inr fh =>
                match decode_meta fh with
                | inl e => inl e
                | inr meta => scan_entries dir entries fs (snapshots ++ [meta])
                end
            end
      end
  end.

Definition getNewest7Snapshot (dir : path) (fs : FS)
  : error + option SnapshotMeta :=
  match os_ReadDir dir fs with
  | inl e => inl e
  | inr entries =>
      match scan_entries dir entries fs [] with
      | inl e => inl e
      | inr snapshots =>
          if (length snapshots =? 0)%nat then inr None
          else inr (Newest snapshots)
      end
  end.

Definition dirIsEmpty (dir : path) (fs : FS) : error + bool :=
  match os_ReadDir dir fs with
  | inl e => inl e
  | inr files => inr (length files =? 0)%nat
  end.

(** *** Upgrade *)

(** The closure of [Upgrade] that writes the base SQLite file: all its file
    handles are closed when it returns. *)
Definition Upgrade_sqlite (old newGenerationDir : path) (oldMeta : SnapshotMeta)
    (fs : FS) : option error * FS :=
  let newSqliteBasePath := newGenerationDir ++ [baseSqliteFile] in
  match os_Create newSqliteBasePath fs with
  | (Some e, fs) => (Some (Errorf "failed to create new SQLite file" e), fs)
  | (None, fs) =>
      let oldStatePath := filepath_Join old [ID oldMeta; v7StateFile] in
      match os_Open oldStatePath fs with
      | inl e => (Some (Errorf "failed to open old state file" e), fs)
      | inr stateFd =>
          (* stateFd.Seek(16, 0), then gzip.NewReader(stateFd) *)
          match stateFd with
          | Dir => (Some (Errorf "failed to create gzip reader for new SQLite file" ErrIsDir), fs)
          | File state =>
              match gzip_NewReader (drop 16 state) with
              | GzHeaderError e =>
                  (Some (Errorf "failed to create gzip reader for new SQLite file" e), fs)
              | GzReader out rerr =>
                  (* io.Copy(newSqliteFd, gzipReader) *)
                  let fs := <[newSqliteBasePath := File out]> fs in
                  match rerr with
                  | Some e =>
                      (Some (Errorf "failed to copy old SQLite file to new SQLite file" e), fs)
                  | None =>
                      if negb (IsValidSQLiteFile newSqliteBasePath fs)
                      then (Some (ErrText "migrated SQLite file is not valid"), fs)
                      else (None, fs)
                  end
              end
          end
      end
  end.

(** [Upgrade] from "Start the upgrade process" to the end of the closure:
    all that happens before the upgraded directory is moved into place.
    The ID of the selected record comes from the content of its metadata
    file and goes through [filepath.Join] as it is; the constants of the
    layout are plain names, which [filepath.Join] appends. *)
Definition Upgrade_build (old new : path) (fs : FS) : option error * FS :=
  let newTmpDir := tmpName new in
  let newGenerationDir := newTmpDir ++ [generationsDir; firstGeneration] in
  match os_MkdirAll newTmpDir fs with
  | (Some e, fs) => (Some (Errorf "failed to create temporary snapshot directory" e), fs)
  | (None, fs) =>
      match getNewest7Snapshot old fs with
      | inl e =>
          (Some (Errorf "failed to get newest snapshot from old snapshots directory" e), fs)
      | inr None => (Some (ErrText "no snapshot to upgrade in old snapshots directory"), fs)
      | inr (Some oldMeta) =>
          let newSnapshotPath := filepath_Join newGenerationDir [ID oldMeta] in
          match os_MkdirAll newSnapshotPath fs with
          | (Some e, fs) => (Some (Errorf "failed to create new snapshot directory" e), fs)
          | (None, fs) =>
              let newMeta := mkMeta oldMeta true in
              match writeMeta newSnapshotPath newMeta fs with
              | (Some e, fs) => (Some (Errorf "failed to write new snapshot meta file" e), fs)
              | (None, fs) => Upgrade_sqlite old newGenerationDir oldMeta fs
              end
          end
      end
  end.

(** [Upgrade] from "Move the upgraded snapshot directory into place" on. *)
Definition Upgrade_commit (old new : path) (fs : FS) : option error * FS :=
  let newTmpDir := tmpName new in
  match os_Rename newTmpDir new fs with
  | (Some e, fs) => (Some (Errorf "failed to move temporary snapshot directory" e), fs)
  | (None, fs) =>
      match syncDirParentMaybe new fs with
      | (Some e, fs) =>
          (Some (Errorf "failed to sync parent directory of new snapshot directory" e), fs)
      | (None, fs) =>
          match removeDirSync old fs with
          | (Some e, fs) => (Some (Errorf "failed to remove old snapshot directory" e), fs)
          | (None, fs) => (None, fs)
          end
      end
  end.

(** The first statement of [Upgrade]: a temporary root that a previous
    attempt left is removed. *)
Definition Upgrade_cleanup (new : path) (fs : FS) : FS :=
  let newTmpDir := tmpName new in
  if dirExists newTmpDir fs then os_RemoveAll newTmpDir fs else fs.

Definition Upgrade (old new : path) (fs : FS) : option error * FS :=
  let fs := Upgrade_cleanup new fs in
  if dirExists old fs then
    match dirIsEmpty old fs with
    | inl e => (Some (Errorf "failed to check if old snapshot directory is empty" e), fs)
    | inr oldIsEmpty =>
        if oldIsEmpty then (None, os_RemoveAll old fs)
        else if dirExists new fs then (None, os_RemoveAll old fs)
        else
          match Upgrade_build old new fs with
          | (Some e, fs) => (Some e, fs)
          | (None, fs) => Upgrade_commit old new fs
          end
    end
  else (None, fs).

(** *** The words of the specification *)

(** The legacy snapshot metadata records under [old]: what the metadata
    file of a subdirectory decodes to. *)
Definition legacy_record (old : path) (fs : FS) (m : SnapshotMeta) : Prop :=
  ∃ name data,
    fs !! (old ++ [name]) = Some Dir
    ∧ fs !! (old ++ [name; metaFileName]) = Some (File data)
    ∧ json_Decode data = Some m.

(** The snapshot directory that [Upgrade] makes for the record [m] during
    the construction: its ID joined to the first generation of the
    temporary root. *)
Definition newSnapshotPath (new : path) (m : SnapshotMeta) : path :=
  filepath_Join (tmpName new ++ [generationsDir; firstGeneration]) [ID m].

(** What [sort.Sort] promises for a [raftMetaSlice]: the same elements, and
    no element less than one before it. *)
Class SortLaws : Prop := {
  sort_Sort_Permutation : ∀ l, sort_Sort Less l ≡ₚ l;
  sort_Sort_Sorted :
    ∀ l, StronglySorted (λ a b, Less b a = false) (sort_Sort Less l)
}.

End package.

(** *** raftMetaSlice as [sort.Sort] sees it *)

(** [s[i]] for an [int] index; out of range it panics ([None]). *)
Definition at_index {A} (s : list A) (i : Z) : option A :=
  if i <? 0 then None else s !! Z.to_nat i.

Definition Len (s : list SnapshotMeta) : Z := Z.of_nat (length s).

(** [Less(i, j)] on the slice. *)
Definition Less_at (s : list SnapshotMeta) (i j : Z) : option bool :=
  a ← at_index s i; b ← at_index s j; Some (Less a b).

(** [Swap(i, j)]: both elements are read, then both are stored. *)
Definition Swap (s : list SnapshotMeta) (i j : Z)
  : option (list SnapshotMeta) :=
  a ← at_index s i; b ← at_index s j;
  Some (<[Z.to_nat j := a]> (<[Z.to_nat i := b]> s)).

(** Where the elements [cs] lead from a directory, as a path relative to
    it ([rel] is where they have led so far); [None] when a ".." leaves the
    directory. *)
Fixpoint descend (rel : path) (cs : list string) : option path :=
  match cs with
  | [] => Some rel
  | c :: cs =>
      if decide (c = EmptyString) then descend rel cs
      else if decide (c = ".") then descend rel cs
      else if decide (c = "..") then
        match rel with
        | [] => None
        | _ => descend (parent rel) cs
        end
      else descend (rel ++ [c]) cs
  end.

(** The directory that an ID names below the directory it is joined to:
    [[id]] for an ID that is a file name, [[]] for the empty ID, and
    [None] for an ID that leads out of the directory. *)
Definition relative (id : string) : option path := descend [] (elements id).

(** The ordering of the specification: the (term, index, id) tuple, term
    first, then index, then the ID byte by byte. *)
Definition id_bytes (s : string) : list N :=
  Ascii.N_of_ascii <$> String.list_ascii_of_string s.

Definition ordering_key (m : SnapshotMeta) : N * (N * list N) :=
  (Term m, (Index m, id_bytes (ID m))).

Definition older (a b : SnapshotMeta) : Prop :=
  lexico (ordering_key a) (ordering_key b).

(** [fs'] differs from [fs] at most at and below [tmp], and by directories
    created on the way to [tmp]. *)
Definition only_tmp (tmp : path) (fs fs' : FS) : Prop :=
  ∀ k, fs' !! k = fs !! k
       ∨ tmp `prefix_of` k
       ∨ (k `prefix_of` tmp ∧ fs !! k = None ∧ fs' !! k = Some Dir).

End snapshot.

(** ** Stand-ins for the libraries, to run the code on examples

    The theorems below hold for every decoder, JSON codec, validity check
    and sort.  The instances here are what the examples run with. *)
Module example.

Definition byte_val (b : byte) : Z := Z.of_N (Byte.to_N b).
Definition byte_of (z : Z) : byte := default x00 (Byte.of_N (Z.to_N (z mod 256))).

(** CRC-32 (IEEE), bit by bit. *)
Definition crc32_step (c : Z) : Z :=
  if Z.testbit c 0 then Z.lxor (Z.shiftr c 1) 0xEDB88320 else Z.shiftr c 1.
Definition crc32_update (crc : Z) (b : byte) : Z :=
  Nat.iter 8 crc32_step (Z.lxor crc (byte_val b)).
Definition crc32 (data : bytes) : Z :=
  Z.lxor (foldl crc32_update 0xFFFFFFFF data) 0xFFFFFFFF.

Definition le_bytes (n : nat) (z : Z) : bytes :=
  (λ i, byte_of (Z.shiftr z (8 * Z.of_nat i))) <$> seq 0 n.
Definition le_value (bs : bytes) : Z :=
  foldr (λ b acc, byte_val b + 256 * acc) 0 bs.

(** The gzip member (RFC 1952) that holds [p], shorter than 64 KiB, in one
    stored block (RFC 1951, BTYPE 00): ten header bytes, the block, CRC-32
    and length. *)
Definition gzip_stored (p : bytes) : bytes :=
  [x1f; x8b; x08; x00; x00; x00; x00; x00; x00; xff]
  ++ [x01] ++ le_bytes 2 (Z.of_nat (length p))
  ++ le_bytes 2 (65535 - Z.of_nat (length p))
  ++ p ++ le_bytes 4 (crc32 p) ++ le_bytes 4 (Z.of_nat (length p)).

Fixpoint inflate_stored (fuel : nat) (data : bytes) : error + bytes * bytes :=
  match fuel, data with
  | S fuel, hdr :: l0 :: l1 :: n0 :: n1 :: rest =>
      if negb (Z.land (byte_val hdr) 6 =? 0) then inl ErrCorrupt
      else
        let len := le_value [l0; l1] in
        if negb (le_value [n0; n1] =? 65535 - len) then inl ErrCorrupt
        else if Z.of_nat (length rest) <? len then inl ErrUnexpectedEOF
        else
          let block := take (Z.to_nat len) rest in
          let rest := drop (Z.to_nat len) rest in
          if Z.testbit (byte_val hdr) 0 then inr (block, rest)
          else match inflate_stored fuel rest with
               | inl e => inl e
               | inr (out, rest) => inr (block ++ out, rest)
               end
  | _, _ => inl ErrUnexpectedEOF
  end.

(** A decoder for single gzip members without optional header fields whose
    blocks are all stored blocks.  On these, and on input too short for a
    header, it answers as [compress/gzip] does; other streams it refuses,
    which [compress/gzip] does not do for all of them. *)
#[global] Instance gunzip_stored : Gzip := λ data,
  if (length data <? 10)%nat then
    GzHeaderError (if (length data =? 0)%nat then EOF else ErrUnexpectedEOF)
  else if negb (bool_decide (take 4 data = [x1f; x8b; x08; x00]))
  then GzHeaderError ErrHeader
  else
    match inflate_stored (length data) (drop 10 data) with
    | inl e => GzReader [] (Some e)
    | inr (out, trailer) =>
        if (length trailer <? 8)%nat then GzReader out (Some ErrUnexpectedEOF)
        else if negb ((le_value (take 4 trailer) =? crc32 out)
                      && (le_value (take 4 (drop 4 trailer))
                          =? Z.of_nat (length out) mod 2 ^ 32))
        then GzReader out (Some ErrChecksum)
        else if (length trailer =? 8)%nat then GzReader out None
        else GzReader out (Some ErrHeader)
    end.

(** A [StorageClient] that writes [data] at offset 0 in one call and passes
    on the error of the write, if any. *)
Definition client_of (data : bytes) : restore.Download :=
  restore.WriteAt data 0 (λ _ err, restore.Return err).

(** A [StorageClient] that writes [data] and then reports a failure. *)
Definition failing_client (data : bytes) : restore.Download :=
  restore.WriteAt data 0 (λ _ _, restore.Return (Some (ErrClient "deadline exceeded"))).

(** A destination that takes everything, still empty. *)
Definition sink : Writer := mkWriter [] None.

(** A temporary directory with no file in it and counters just reset. *)
Definition fresh : restore.State :=
  restore.mkState ∅ (restore.ResetStats ∅).

#[global] Instance layout : snapshot.Layout := {|
  snapshot.tmpSuffix := ".tmp";
  snapshot.generationsDir := "generations";
  snapshot.firstGeneration := "0000000001";
  snapshot.baseSqliteFile := "base.sqlite";
  snapshot.metaFileName := "meta.json"
|}.

(** Go's insertion sort ([sort.Sort] runs it on slices of at most 12
    elements): each element moves left past the elements it is less than.
    [insert_left] works on the sorted part in reverse. *)
Fixpoint insert_left {A} (less : A → A → bool) (x : A) (rev_sorted : list A)
  : list A :=
  match rev_sorted with
  | y :: rest => if less x y then y :: insert_left less x rest else x :: rev_sorted
  | [] => [x]
  end.

Definition insertion_sort {A} (less : A → A → bool) (l : list A) : list A :=
  reverse (foldl (λ acc x, insert_left less x acc) [] l).

(** A metadata document for the examples: one byte for the term, one for
    the index, then the ID. *)
Definition decode_doc (data : bytes) : option snapshot.SnapshotMeta :=
  match data with
  | term :: index :: id =>
      Some (snapshot.mkSnapshotMeta 1 (String.string_of_list_byte id)
              (Byte.to_N index) (Byte.to_N term) [] [] 0 0)
  | _ => None
  end.

Definition encode_doc (m : snapshot.Meta) : bytes :=
  let s := snapshot.Meta_SnapshotMeta m in
  (if snapshot.Full m then x01 else x00)
    :: byte_of (Z.of_N (snapshot.Term s)) :: byte_of (Z.of_N (snapshot.Index s))
    :: String.list_byte_of_string (snapshot.ID s).

(** The header check of a database file: it begins with "SQLite format". *)
Definition sqlite_header : bytes := String.list_byte_of_string "SQLite format".

#[global] Instance library : snapshot.Library := {|
  snapshot.json_Decode := decode_doc;
  snapshot.json_Encode := encode_doc;
  snapshot.IsValidSQLite := λ data,
    bool_decide (take (length sqlite_header) data = sqlite_header);
  snapshot.sort_Sort := @insertion_sort snapshot.SnapshotMeta
|}.

(** The two roots of the examples, and the trees they are run on. *)
Definition old_root : snapshot.path := ["data"; "snapshots"].
Definition new_root : snapshot.path := ["data"; "rsnapshots"].

(** A legacy state blob: 16 bytes of header and length, then the gzip
    stream of the database. *)
Definition blob (p : bytes) : bytes := replicate 16 x00 ++ gzip_stored p.

Definition database : bytes := sqlite_header ++ [x20; x33; x00].

(** Three legacy snapshots, (term, index, id) = (1,5,a), (2,1,b), (2,1,c),
    and a temporary root that an interrupted attempt left. *)
Definition three_snapshots : snapshot.FS :=
  list_to_map [
    ([], snapshot.Dir); (["data"], snapshot.Dir); (old_root, snapshot.Dir);
    (old_root ++ ["a"], snapshot.Dir);
    (old_root ++ ["a"; "meta.json"], snapshot.File [x01; x05; x61]);
    (old_root ++ ["a"; "state.bin"], snapshot.File (blob database));
    (old_root ++ ["b"], snapshot.Dir);
    (old_root ++ ["b"; "meta.json"], snapshot.File [x02; x01; x62]);
    (old_root ++ ["b"; "state.bin"], snapshot.File (blob database));
    (old_root ++ ["c"], snapshot.Dir);
    (old_root ++ ["c"; "meta.json"], snapshot.File [x02; x01; x63]);
    (old_root ++ ["c"; "state.bin"], snapshot.File (blob database));
    (["data"; "rsnapshots.tmp"], snapshot.Dir);
    (["data"; "rsnapshots.tmp"; "generations"], snapshot.Dir)
  ].

(** One legacy snapshot whose state blob is cut off after 20 bytes. *)
Definition truncated_blob : snapshot.FS :=
  list_to_map [
    ([], snapshot.Dir); (["data"], snapshot.Dir); (old_root, snapshot.Dir);
    (old_root ++ ["a"], snapshot.Dir);
    (old_root ++ ["a"; "meta.json"], snapshot.File [x01; x05; x61]);
    (old_root ++ ["a"; "state.bin"], snapshot.File (take 20 (blob database)));
    (["data"; "rsnapshots.tmp"], snapshot.Dir);
    (["data"; "rsnapshots.tmp"; "junk"], snapshot.File [x00])
  ].

(** An old root with a subdirectory and no metadata file at all. *)
Definition no_records : snapshot.FS :=
  list_to_map [
    ([], snapshot.Dir); (["data"], snapshot.Dir); (old_root, snapshot.Dir);
    (old_root ++ ["a"], snapshot.Dir);
    (old_root ++ ["a"; "state.bin"], snapshot.File (blob database))
  ].

(** A legacy snapshot whose metadata file gives an ID that leads to the new
    root: from the first generation of the temporary root, three levels up
    and down into [rsnapshots]. *)
Definition escaping_id : snapshot.FS :=
  list_to_map [
    ([], snapshot.Dir); (["data"], snapshot.Dir); (old_root, snapshot.Dir);
    (old_root ++ ["a"], snapshot.Dir);
    (old_root ++ ["a"; "meta.json"],
     snapshot.File ([x01; x05] ++ String.list_byte_of_string "../../../rsnapshots"));
    (old_root ++ ["a"; "state.bin"], snapshot.File (blob database))
  ].

(** A legacy snapshot whose metadata file gives the empty ID, and a state
    blob where [filepath.Join] then looks for it: in the old root itself. *)
Definition empty_id : snapshot.FS :=
  list_to_map [
    ([], snapshot.Dir); (["data"], snapshot.Dir); (old_root, snapshot.Dir);
    (old_root ++ ["a"], snapshot.Dir);
    (old_root ++ ["a"; "meta.json"], snapshot.File [x01; x05]);
    (old_root ++ ["state.bin"], snapshot.File (blob database))
  ].

(** No old root; an empty old root; an old root beside a finished new one. *)
Definition no_old : snapshot.FS :=
  list_to_map [([], snapshot.Dir); (["data"], snapshot.Dir)].

Definition empty_old : snapshot.FS :=
  list_to_map [([], snapshot.Dir); (["data"], snapshot.Dir); (old_root, snapshot.Dir)].

Definition already_upgraded : snapshot.FS :=
  list_to_map [
    ([], snapshot.Dir); (["data"], snapshot.Dir); (old_root, snapshot.Dir);
    (old_root ++ ["a"], snapshot.Dir);
    (old_root ++ ["a"; "meta.json"], snapshot.File [x01; x05; x61]);
    (new_root, snapshot.Dir);
    (new_root ++ ["generations"], snapshot.Dir);
    (new_root ++ ["generations"; "0000000001"], snapshot.Dir);
    (new_root ++ ["generations"; "0000000001"; "base.sqlite"], snapshot.File database)
  ].

End example.

(** * Properties *)

(** Closes a decidable side condition on concrete data by evaluation. *)
Ltac by_evaluation := apply (bool_decide_unpack _); vm_compute; exact I.

(** ** The restore downloader *)

Section restore_facts.
Import restore.
Context `{Gzip}.

Lemma wrap64_small z : - 2 ^ 63 ≤ z < 2 ^ 63 → wrap64 z = z.
Proof. intros Hz. unfold wrap64. rewrite Z.mod_small; lia. Qed.

Lemma wrap64_add_l a b : wrap64 (wrap64 a + b) = wrap64 (a + b).
Proof.
  unfold wrap64. f_equal.
  replace ((a + 2 ^ 63) mod 2 ^ 64 - 2 ^ 63 + b + 2 ^ 63)
    with ((a + 2 ^ 63) mod 2 ^ 64 + b) by lia.
  rewrite Zplus_mod_idemp_l. f_equal. lia.
Qed.

Lemma wrap64_add_r a b : wrap64 (a + wrap64 b) = wrap64 (a + b).
Proof. rewrite (Z.add_comm a), wrap64_add_l. f_equal. lia. Qed.

Lemma counter_stats_Add_eq key delta m :
  counter (stats_Add key delta m) key = wrap64 (counter m key + delta).
Proof. unfold counter, stats_Add. by rewrite lookup_insert_eq. Qed.

Lemma counter_stats_Add_ne key key' delta m :
  key ≠ key' → counter (stats_Add key delta m) key' = counter m key'.
Proof. intros. unfold counter, stats_Add. by rewrite lookup_insert_ne. Qed.

(** *** The staging file during a download *)

Lemma File_WriteAt_other name p off dir k :
  k ≠ name → (File_WriteAt name p off dir).2 !! k = dir !! k.
Proof.
  intros Hk. unfold File_WriteAt.
  destruct (off <? 0); [done|]. destruct p; [done|].
  cbn. by rewrite lookup_insert_ne.
Qed.

Lemma File_WriteAt_nonneg name p off dir : 0 ≤ (File_WriteAt name p off dir).1.1.
Proof.
  unfold File_WriteAt. destruct (off <? 0); [done|]. destruct p; [done|].
  cbn -[Z.of_nat]. lia.
Qed.

Lemma File_WriteAt_zero name p off dir :
  (File_WriteAt name p off dir).1.1 = 0 → (File_WriteAt name p off dir).2 = dir.
Proof.
  unfold File_WriteAt. destruct (off <? 0); [done|]. destruct p; [done|].
  cbn -[Z.of_nat]. lia.
Qed.

Lemma write_results_nonneg d : ∀ name dir,
  0 ≤ foldr Z.add 0 (write_results d name dir).
Proof.
  induction d as [err|p off next IH]; intros name dir; [done|].
  cbn. pose proof (File_WriteAt_nonneg name p off dir) as Hn.
  destruct (File_WriteAt name p off dir) as [[n e] dir'].
  cbn in *. specialize (IH n e name dir'). lia.
Qed.

Lemma run_Download_other d : ∀ cw dir k,
  k ≠ writerAt cw → (run_Download d cw dir).2 !! k = dir !! k.
Proof.
  induction d as [err|p off next IH]; intros cw dir k Hk; [done|].
  cbn. unfold countingWriterAt_WriteAt.
  pose proof (File_WriteAt_other (writerAt cw) p off dir k Hk) as Hw.
  destruct (File_WriteAt (writerAt cw) p off dir) as [[n e] dir'].
  rewrite IH by done. done.
Qed.

(** The counting writer ends at the sum of the results, as an [int64]. *)
Lemma run_Download_count d : ∀ cw dir,
  wrap64 (count (run_Download d cw dir).1.2)
  = wrap64 (count cw + foldr Z.add 0 (write_results d (writerAt cw) dir)).
Proof.
  induction d as [err|p off next IH]; intros cw dir.
  - cbn. f_equal. lia.
  - cbn. unfold countingWriterAt_WriteAt.
    destruct (File_WriteAt (writerAt cw) p off dir) as [[n e] dir'].
    rewrite IH. cbn. rewrite wrap64_add_l. f_equal. lia.
Qed.

Lemma run_Download_nothing_written d : ∀ cw dir,
  foldr Z.add 0 (write_results d (writerAt cw) dir) = 0 →
  (run_Download d cw dir).2 = dir.
Proof.
  induction d as [err|p off next IH]; intros cw dir Hsum; [done|].
  cbn in *. unfold countingWriterAt_WriteAt.
  pose proof (File_WriteAt_nonneg (writerAt cw) p off dir) as Hn.
  pose proof (File_WriteAt_zero (writerAt cw) p off dir) as Hz.
  destruct (File_WriteAt (writerAt cw) p off dir) as [[n e] dir'].
  cbn in *.
  pose proof (write_results_nonneg (next n e) (writerAt cw) dir') as Hrest.
  assert (n = 0) as -> by lia.
  rewrite (IH 0 e (mkCW (writerAt cw) (wrap64 (count cw + 0))) dir') by (cbn; lia).
  by apply Hz.
Qed.

Lemma os_CreateTemp_inr pick dir0 name dir :
  os_CreateTemp pick dir0 = inr (name, dir) →
  pick = Some name ∧ dir0 !! name = None ∧ dir = <[name := []]> dir0.
Proof.
  unfold os_CreateTemp. destruct pick as [n|]; [|done].
  destruct (dir0 !! n) eqn:Hn; [done|]. intros [= <- <-]. done.
Qed.

(** *** isGzip *)

Lemma isGzip_long data pos :
  (3 ≤ length data)%nat →
  isGzip (mkRS data pos)
  = (bool_decide (gzipMagic = take 3 data), None, mkRS data 0).
Proof.
  intros Hlen. unfold isGzip, Read, Seek_start. cbn.
  destruct data as [|b0 [|b1 [|b2 rest]]]; cbn in Hlen; try lia.
  done.
Qed.

Lemma isGzip_empty pos : isGzip (mkRS [] pos) = (false, Some EOF, mkRS [] 0).
Proof. done. Qed.

(** Away from files of one or two bytes the read position is at the start
    when [isGzip] returns, and the answer is whether the file begins with
    the three bytes 1f 8b 08. *)
Lemma isGzip_rewinds data pos :
  length data ≠ 1%nat → length data ≠ 2%nat →
  rs_pos (isGzip (mkRS data pos)).2 = 0%nat
  ∧ ((isGzip (mkRS data pos)).1.1 = true ↔ take 3 data = [x1f; x8b; x08]).
Proof.
  intros H1 H2. destruct data as [|b0 [|b1 [|b2 rest]]]; try done.
  rewrite isGzip_long by (cbn; lia). split; [done|].
  cbn [fst snd]. rewrite bool_decide_eq_true. unfold gzipMagic. done.
Qed.

Lemma isGzip_short data pos :
  (0 < length data < 3)%nat →
  isGzip (mkRS data pos) = (false, None, mkRS data (length data)).
Proof.
  intros Hlen.
  destruct data as [|b0 [|b1 [|b2 rest]]]; cbn in Hlen; try lia; done.
Qed.

(** C3: [isGzip] looks at the first three bytes for the marker 1f 8b 08, but
    it does not restore the read position for every file: on a file of one
    or two bytes it returns (false, nil) with the position at the end of the
    file, against its own comment ("When f is returned it will be positioned
    at the start of the reader"). *)
Theorem isGzip_short_file_not_rewound data pos :
  (0 < length data < 3)%nat →
  isGzip (mkRS data pos) = (false, None, mkRS data (length data))
  ∧ rs_pos (isGzip (mkRS data pos)).2 ≠ 0%nat.
Proof.
  intros Hlen. rewrite isGzip_short by done.
  split; [done|]. cbn. lia.
Qed.

(** *** Downloader.Do *)

(** What [Do_staged] does to the counting writer and to the directory is
    what the download did. *)
Lemma Do_staged_download client w name dir :
  let r := Do_staged client w name dir in
  (r.1.1.2, r.2) = ((run_Download client (mkCW name 0) dir).1.2,
                    (run_Download client (mkCW name 0) dir).2).
Proof.
  unfold Do_staged.
  destruct (run_Download client (mkCW name 0) dir) as [[err cw] dir'].
  destruct err; [done|].
  destruct (isGzip _) as [[compressed err] f].
  destruct err; [done|]. destruct compressed.
  - destruct (gzip_NewReader _); [done|].
    destruct (io_Copy _ _ _) as [[?|] ?]; done.
  - destruct (io_Copy _ _ _) as [[?|] ?]; done.
Qed.

(** What the counting writer holds at the end of the download of one call. *)
Definition final_count (client : Download) (pick : option string) (s : State)
  : Z :=
  match os_CreateTemp pick (fs s) with
  | inl _ => 0
  | inr (name, dir) => count (run_Download client (mkCW name 0) dir).1.2
  end.

Lemma final_count_bytes_written client pick s :
  wrap64 (final_count client pick s) = wrap64 (bytes_written client pick s).
Proof.
  unfold final_count, bytes_written.
  destruct (os_CreateTemp pick (fs s)) as [e|[name dir]]; [done|].
  rewrite run_Download_count. cbn. done.
Qed.

(** The stats map after a call: the deferred closure has run once. *)
Lemma Do_stats client w pick s :
  stats (Do client w pick s).2
  = match (Do client w pick s).1.1 with
    | None =>
        stats_Add numDownloadBytes (final_count client pick s)
          (stats_Add numDownloadsOK 1 (stats s))
    | Some _ => stats_Add numDownloadsFail 1 (stats s)
    end.
Proof.
  unfold Do, final_count.
  destruct (os_CreateTemp pick (fs s)) as [e|[name dir]]; [done|].
  pose proof (Do_staged_download client w name dir) as Hd.
  destruct (Do_staged client w name dir) as [[[err cw] w'] dir'].
  cbn in Hd. injection Hd as Hcw Hdir. destruct err as [e|]; [done|].
  cbn. by rewrite Hcw.
Qed.

(** C4: every call of [Do] moves exactly one of the two counters by one.
    With a nil result it is the success counter, and the byte counter grows
    by the bytes that went into the staging file; with an error it is the
    failure counter, and the other two stay.  The counters are [int64]:
    [wrap64] is the identity while nothing overflows ([wrap64_small]). *)
Theorem Do_counts_once client w pick s :
  let '(err, _, s') := Do client w pick s in
  match err with
  | None =>
      counter (stats s') numDownloadsOK
        = wrap64 (counter (stats s) numDownloadsOK + 1)
      ∧ counter (stats s') numDownloadsFail = counter (stats s) numDownloadsFail
      ∧ counter (stats s') numDownloadBytes
        = wrap64 (counter (stats s) numDownloadBytes
                  + bytes_written client pick s)
  | Some _ =>
      counter (stats s') numDownloadsFail
        = wrap64 (counter (stats s) numDownloadsFail + 1)
      ∧ counter (stats s') numDownloadsOK = counter (stats s) numDownloadsOK
      ∧ counter (stats s') numDownloadBytes = counter (stats s) numDownloadBytes
  end.
Proof.
  pose proof (Do_stats client w pick s) as Hs.
  destruct (Do client w pick s) as [[err w'] s']. cbn [fst snd] in Hs.
  rewrite Hs. destruct err as [e|].
  - rewrite counter_stats_Add_eq, !counter_stats_Add_ne by done. done.
  - rewrite counter_stats_Add_eq, !counter_stats_Add_ne by done.
    rewrite counter_stats_Add_eq, !counter_stats_Add_ne by done.
    split_and!; try done.
    by rewrite <-wrap64_add_r, final_count_bytes_written, wrap64_add_r.
Qed.

(** Counters that are not about to overflow grow by the plain sums. *)
Lemma Do_counts_in_range client w pick s :
  - 2 ^ 63 ≤ counter (stats s) numDownloadsOK < 2 ^ 63 - 1 →
  0 ≤ counter (stats s) numDownloadBytes →
  counter (stats s) numDownloadBytes + bytes_written client pick s < 2 ^ 63 →
  (Do client w pick s).1.1 = None →
  counter (stats (Do client w pick s).2) numDownloadsOK
    = counter (stats s) numDownloadsOK + 1
  ∧ counter (stats (Do client w pick s).2) numDownloadBytes
    = counter (stats s) numDownloadBytes + bytes_written client pick s.
Proof.
  intros Hok Hb0 Hb Hnil. rewrite Do_stats, Hnil.
  rewrite counter_stats_Add_eq, !counter_stats_Add_ne by done.
  rewrite counter_stats_Add_eq, !counter_stats_Add_ne by done.
  assert (0 ≤ bytes_written client pick s).
  { unfold bytes_written. destruct (os_CreateTemp _ _) as [|[name dir]]; [done|].
    apply write_results_nonneg. }
  split; [apply wrap64_small; lia|].
  rewrite <-wrap64_add_r, final_count_bytes_written, wrap64_add_r.
  apply wrap64_small. lia.
Qed.

(** C9: once the staging file is created it is gone when [Do] returns, on
    every path, and the directory of temporary files is as it was. *)
Theorem Do_removes_staging_file client w pick s name dir :
  os_CreateTemp pick (fs s) = inr (name, dir) →
  fs (Do client w pick s).2 !! name = None
  ∧ fs (Do client w pick s).2 = fs s.
Proof.
  intros Hc. unfold Do. rewrite Hc.
  apply os_CreateTemp_inr in Hc as (_ & Hfresh & ->).
  pose proof (Do_staged_download client w name (<[name:=[]]> (fs s))) as Hd.
  destruct (Do_staged client w name _) as [[[err cw] w'] dir'].
  cbn in Hd. injection Hd as _ ->. cbn [snd fs].
  unfold os_Remove. split; [apply lookup_delete_eq|].
  apply map_eq. intros k. destruct (decide (k = name)) as [->|Hk].
  - by rewrite lookup_delete_eq.
  - rewrite lookup_delete_ne by done.
    rewrite run_Download_other by done. by rewrite lookup_insert_ne.
Qed.

(** A download that ends without an error and leaves the staging file empty. *)
Lemma Do_empty_staging_file client w pick s name dir cw dir' :
  os_CreateTemp pick (fs s) = inr (name, dir) →
  run_Download client (mkCW name 0) dir = (None, cw, dir') →
  dir' !! name = Some [] →
  Do client w pick s
  = (Some EOF, w,
     mkState (os_Remove name dir') (stats_Add numDownloadsFail 1 (stats s))).
Proof.
  intros Hc Hrun Hempty. unfold Do, Do_staged. rewrite Hc, Hrun, Hempty. done.
Qed.

(** C10: a download that reports success and has written zero bytes makes
    [Do] return [io.EOF], the error of the sniff on the empty file; the
    call counts as a failure and the destination receives nothing. *)
Theorem Do_empty_download_fails client w pick s name dir :
  os_CreateTemp pick (fs s) = inr (name, dir) →
  (run_Download client (mkCW name 0) dir).1.1 = None →
  bytes_written client pick s = 0 →
  let '(err, w', s') := Do client w pick s in
  err = Some EOF ∧ w' = w
  ∧ counter (stats s') numDownloadsFail
    = wrap64 (counter (stats s) numDownloadsFail + 1)
  ∧ counter (stats s') numDownloadsOK = counter (stats s) numDownloadsOK
  ∧ counter (stats s') numDownloadBytes = counter (stats s) numDownloadBytes.
Proof.
  intros Hc Hok Hzero. unfold bytes_written in Hzero. rewrite Hc in Hzero.
  pose proof (run_Download_nothing_written client (mkCW name 0) dir Hzero) as Hdir.
  destruct (run_Download client (mkCW name 0) dir) as [[err cw] dir'] eqn:Hrun.
  cbn in Hok, Hdir. subst err dir'.
  rewrite (Do_empty_staging_file client w pick s name dir cw dir Hc Hrun).
  - cbn -[counter stats_Add wrap64].
    rewrite counter_stats_Add_eq, !counter_stats_Add_ne by done. done.
  - apply os_CreateTemp_inr in Hc as (_ & _ & ->). apply lookup_insert_eq.
Qed.

Lemma io_Copy_unbounded w out :
  room w = None → io_Copy w out None = (None, mkWriter (written w ++ out) None).
Proof. intros Hw. unfold io_Copy, Writer_Write. by rewrite Hw. Qed.

(** C2, as amended: when the download leaves in the staging file a gzip
    stream of [P] (it begins with the marker and decodes to [P]), or [P]
    itself where [P] has at least three bytes and does not begin with the
    marker, and the staging file can be created and the destination takes
    all it is given, [Do] returns nil and the destination receives exactly
    the bytes of [P]. *)
Theorem Do_delivers_payload client w pick s name dir cw dir' S P :
  os_CreateTemp pick (fs s) = inr (name, dir) →
  room w = None →
  run_Download client (mkCW name 0) dir = (None, cw, dir') →
  dir' !! name = Some S →
  (S = P ∧ (3 ≤ length P)%nat ∧ take 3 P ≠ gzipMagic)
  ∨ (take 3 S = gzipMagic ∧ gzip_NewReader S = GzReader P None) →
  (Do client w pick s).1 = (None, mkWriter (written w ++ P) None).
Proof.
  intros Hc Hw Hrun HS Hdeliv. unfold Do, Do_staged. rewrite Hc, Hrun, HS.
  cbn [default from_option].
  destruct Hdeliv as [(-> & Hlen & Hraw)|(Hmagic & Hgz)].
  - rewrite isGzip_long by done.
    rewrite bool_decide_eq_false_2 by (intros Heq; by apply Hraw).
    unfold unread. cbn [rs_pos rs_data]. rewrite drop_0. unfold id.
    rewrite io_Copy_unbounded by done. done.
  - assert (3 ≤ length S)%nat as Hlen.
    { apply (f_equal length) in Hmagic. rewrite length_take in Hmagic.
      change (length gzipMagic) with 3%nat in Hmagic. lia. }
    rewrite isGzip_long by done.
    rewrite bool_decide_eq_true_2 by done.
    unfold unread. cbn [rs_pos rs_data]. rewrite drop_0. unfold id. rewrite Hgz.
    rewrite io_Copy_unbounded by done. done.
Qed.

(** A payload that begins with the marker is taken for a gzip stream, also
    when it was delivered as it is: the destination then receives what the
    decoder makes of it. *)
Lemma Do_decodes_what_begins_with_marker client w pick s name dir cw dir' S :
  os_CreateTemp pick (fs s) = inr (name, dir) →
  run_Download client (mkCW name 0) dir = (None, cw, dir') →
  dir' !! name = Some S →
  take 3 S = gzipMagic →
  (Do client w pick s).1.1
  = match gzip_NewReader S with
    | GzHeaderError e => Some e
    | GzReader out rerr =>
        match (io_Copy w out rerr).1 with
        | Some e => Some (Errorf "failed to decompress data" e)
        | None => None
        end
    end.
Proof.
  intros Hc Hrun HS Hmagic. unfold Do, Do_staged. rewrite Hc, Hrun, HS.
  cbn [default from_option].
  assert (3 ≤ length S)%nat as Hlen.
  { apply (f_equal length) in Hmagic. rewrite length_take in Hmagic.
    change (length gzipMagic) with 3%nat in Hmagic. lia. }
  rewrite isGzip_long by done. rewrite bool_decide_eq_true_2 by done.
  unfold unread. cbn [rs_pos rs_data]. rewrite drop_0. unfold id.
  destruct (gzip_NewReader S) as [e|out rerr]; [done|].
  destruct (io_Copy w out rerr) as [[e|] w']; done.
Qed.

(** X4: what the position that [isGzip] leaves behind costs: a payload of
    one or two bytes is not delivered, and [Do] returns nil all the same. *)
Lemma Do_short_payload_lost client w pick s name dir cw dir' S :
  os_CreateTemp pick (fs s) = inr (name, dir) →
  room w = None →
  run_Download client (mkCW name 0) dir = (None, cw, dir') →
  dir' !! name = Some S →
  (0 < length S < 3)%nat →
  (Do client w pick s).1 = (None, mkWriter (written w ++ []) None).
Proof.
  intros Hc Hw Hrun HS Hlen. unfold Do, Do_staged. rewrite Hc, Hrun, HS.
  cbn [default from_option].
  rewrite isGzip_short by done.
  unfold unread. cbn [rs_pos rs_data]. rewrite drop_all.
  rewrite io_Copy_unbounded by done. done.
Qed.

End restore_facts.

(** *** The downloader on examples *)

Section restore_examples.
Import restore example.

(** A file of one byte: the position is left at 1. *)
Lemma isGzip_short_file_witness :
  isGzip (mkRS [x41] 0) = (false, None, mkRS [x41] 1)
  ∧ rs_pos (isGzip (mkRS [x41] 0)).2 ≠ 0%nat.
Proof. apply (isGzip_short_file_not_rewound [x41] 0). cbn. lia. Defined.

(** "hi" arrives as a gzip member, and "hi!" as it is. *)
Lemma Do_delivers_payload_witness :
  (Do (client_of (gzip_stored [x68; x69])) sink (Some "rqlite-downloader1") fresh).1
    = (None, mkWriter [x68; x69] None)
  ∧ (Do (client_of [x68; x69; x21]) sink (Some "rqlite-downloader1") fresh).1
    = (None, mkWriter [x68; x69; x21] None).
Proof.
  split.
  - apply (Do_delivers_payload (client_of (gzip_stored [x68; x69])) sink
             (Some "rqlite-downloader1") fresh "rqlite-downloader1"
             (<[("rqlite-downloader1" : string) := []]> ∅)
             (mkCW "rqlite-downloader1" 25)
             (<[("rqlite-downloader1" : string) := gzip_stored [x68; x69]]> ∅)
             (gzip_stored [x68; x69]) [x68; x69]).
    + reflexivity.
    + reflexivity.
    + vm_compute. reflexivity.
    + vm_compute. reflexivity.
    + right. split; vm_compute; reflexivity.
  - apply (Do_delivers_payload (client_of [x68; x69; x21]) sink
             (Some "rqlite-downloader1") fresh "rqlite-downloader1"
             (<[("rqlite-downloader1" : string) := []]> ∅)
             (mkCW "rqlite-downloader1" 3)
             (<[("rqlite-downloader1" : string) := [x68; x69; x21]]> ∅)
             [x68; x69; x21] [x68; x69; x21]).
    + reflexivity.
    + reflexivity.
    + vm_compute. reflexivity.
    + vm_compute. reflexivity.
    + left. split; [done|]. split; [cbn; lia|]. by_evaluation.
Defined.

(** The three bytes 1f 8b 08, delivered as they are, with a staging file
    and a destination that do not fail: the staging file holds them, [Do]
    takes them for a gzip stream and returns the decoder's error, and the
    destination receives nothing.  And the empty payload, delivered as it
    is: [Do] returns [io.EOF]. *)
Lemma Do_raw_marker_payload_fails :
  (run_Download (client_of [x1f; x8b; x08]) (mkCW "rqlite-downloader1" 0)
     (<[("rqlite-downloader1" : string) := []]> ∅)).2 !! "rqlite-downloader1"
    = Some [x1f; x8b; x08]
  ∧ Do (client_of [x1f; x8b; x08]) sink (Some "rqlite-downloader1") fresh
    ≠ (None, mkWriter [x1f; x8b; x08] None,
       (Do (client_of [x1f; x8b; x08]) sink (Some "rqlite-downloader1") fresh).2)
  ∧ (Do (client_of [x1f; x8b; x08]) sink (Some "rqlite-downloader1") fresh).1
    = (Some ErrUnexpectedEOF, sink)
  ∧ (Do (client_of []) sink (Some "rqlite-downloader1") fresh).1
    = (Some EOF, sink).
Proof.
  split; [vm_compute; reflexivity|].
  assert ((Do (client_of [x1f; x8b; x08]) sink (Some "rqlite-downloader1") fresh).1
          = (Some ErrUnexpectedEOF, sink)) as Hdo by (vm_compute; reflexivity).
  split; [|split; [done|vm_compute; reflexivity]].
  intros Heq. rewrite Heq in Hdo. discriminate Hdo.
Qed.

(** The download fails after one byte: the staging file is gone. *)
Lemma Do_removes_staging_file_witness :
  fs (Do (failing_client [x01]) sink (Some "rqlite-downloader1") fresh).2
    !! "rqlite-downloader1" = None
  ∧ fs (Do (failing_client [x01]) sink (Some "rqlite-downloader1") fresh).2
    = fs fresh.
Proof.
  apply (Do_removes_staging_file (failing_client [x01]) sink
           (Some "rqlite-downloader1") fresh "rqlite-downloader1"
           (<[("rqlite-downloader1" : string) := []]> ∅)).
  reflexivity.
Defined.

(** A client that returns nil at once. *)
Lemma Do_empty_download_fails_witness :
  let '(err, w', s') := Do (Return None) sink (Some "rqlite-downloader1") fresh in
  err = Some EOF ∧ w' = sink
  ∧ counter (stats s') numDownloadsFail
    = wrap64 (counter (stats fresh) numDownloadsFail + 1)
  ∧ counter (stats s') numDownloadsOK = counter (stats fresh) numDownloadsOK
  ∧ counter (stats s') numDownloadBytes = counter (stats fresh) numDownloadBytes.
Proof.
  apply (Do_empty_download_fails (Return None) sink
           (Some "rqlite-downloader1") fresh "rqlite-downloader1"
           (<[("rqlite-downloader1" : string) := []]> ∅)); reflexivity.
Defined.

End restore_examples.

(** ** The snapshot upgrade *)

Section fs_facts.
Import snapshot.
Implicit Types (fs : FS) (p q k : path).

Lemma lookup_RemoveAll p fs k :
  os_RemoveAll p fs !! k = if decide (p `prefix_of` k) then None else fs !! k.
Proof.
  unfold os_RemoveAll. rewrite map_lookup_filter.
  destruct (fs !! k) as [n|] eqn:Hk; cbn; [|by case_decide].
  case_decide.
  - rewrite option_guard_False; [done|]. cbn. tauto.
  - rewrite option_guard_True; done.
Qed.

Lemma lookup_RemoveAll_below p fs k :
  p `prefix_of` k → os_RemoveAll p fs !! k = None.
Proof. intros. rewrite lookup_RemoveAll. by rewrite decide_True. Qed.

Lemma lookup_RemoveAll_other p fs k :
  ¬ p `prefix_of` k → os_RemoveAll p fs !! k = fs !! k.
Proof. intros. rewrite lookup_RemoveAll. by rewrite decide_False. Qed.

Lemma RemoveAll_subseteq p fs : os_RemoveAll p fs ⊆ fs.
Proof. apply map_filter_subseteq. Qed.

Lemma RemoveAll_absent p fs :
  (∀ k, p `prefix_of` k → fs !! k = None) → os_RemoveAll p fs = fs.
Proof.
  intros Hp. apply map_eq. intros k. rewrite lookup_RemoveAll.
  case_decide; [by rewrite Hp|done].
Qed.

(** Two prefixes of one path are comparable. *)
Lemma prefix_comparable p q k :
  p `prefix_of` k → q `prefix_of` k → p `prefix_of` q ∨ q `prefix_of` p.
Proof. apply prefix_weak_total. Qed.

Lemma apart_sym p q : apart p q → apart q p.
Proof. unfold apart. tauto. Qed.

Lemma apart_below p q k : apart p q → q `prefix_of` k → apart p k.
Proof.
  intros [Hpq Hqp] Hqk. split.
  - intros Hpk. destruct (prefix_comparable p q k); tauto.
  - intros Hkp. apply Hqp. by etrans.
Qed.

Lemma apart_below_l p q k : apart p q → p `prefix_of` k → ¬ q `prefix_of` k.
Proof. intros [Hpq Hqp] Hpk Hqk. destruct (prefix_comparable p q k); tauto. Qed.

(** [os.MkdirAll] creates directories on the way to [p] and nothing else. *)
Lemma MkdirAll_up_lookup rp : ∀ fs k,
  (MkdirAll_up rp fs).2 !! k = fs !! k
  ∨ (fs !! k = None ∧ (MkdirAll_up rp fs).2 !! k = Some Dir
     ∧ k `prefix_of` reverse rp).
Proof.
  induction rp as [|x up IH]; intros fs k; cbn [MkdirAll_up].
  - destruct (fs !! reverse []) as [[d|]|] eqn:Hp; cbn [fst snd]; [by left..|].
    destruct (decide (k = reverse [])) as [->|Hk].
    + right. rewrite lookup_insert_eq. done.
    + left. by rewrite lookup_insert_ne.
  - destruct (fs !! reverse (x :: up)) as [[d|]|] eqn:Hp; cbn [fst snd]; [by left..|].
    specialize (IH fs k).
    destruct (MkdirAll_up up fs) as [[e|] fs1]; cbn [fst snd] in *.
    + destruct IH as [IH|(? & ? & Hpre)]; [by left|right].
      split_and!; try done. rewrite reverse_cons. by apply prefix_app_r.
    + destruct (decide (k = reverse (x :: up))) as [->|Hk].
      * right. rewrite lookup_insert_eq. done.
      * rewrite lookup_insert_ne by done.
        destruct IH as [IH|(? & ? & Hpre)]; [by left|right].
        split_and!; try done. rewrite reverse_cons. by apply prefix_app_r.
Qed.

Lemma MkdirAll_lookup p fs k :
  (os_MkdirAll p fs).2 !! k = fs !! k
  ∨ (fs !! k = None ∧ (os_MkdirAll p fs).2 !! k = Some Dir ∧ k `prefix_of` p).
Proof.
  unfold os_MkdirAll. pose proof (MkdirAll_up_lookup (reverse p) fs k) as Hl.
  by rewrite reverse_involutive in Hl.
Qed.

Lemma MkdirAll_up_made rp : ∀ fs fs',
  MkdirAll_up rp fs = (None, fs') → fs' !! reverse rp = Some Dir.
Proof.
  destruct rp as [|x up]; intros fs fs'; cbn [MkdirAll_up].
  - destruct (fs !! reverse []) as [[d|]|] eqn:Hp; intros [= <-]; [done|].
    apply lookup_insert_eq.
  - destruct (fs !! reverse (x :: up)) as [[d|]|] eqn:Hp; [done|by intros [= <-]|].
    destruct (MkdirAll_up up fs) as [[e|] fs1]; intros [= <-].
    apply lookup_insert_eq.
Qed.

Lemma MkdirAll_made p fs fs' :
  os_MkdirAll p fs = (None, fs') → fs' !! p = Some Dir.
Proof.
  unfold os_MkdirAll. intros Hm%MkdirAll_up_made.
  by rewrite reverse_involutive in Hm.
Qed.

Lemma MkdirAll_up_error rp : ∀ fs e fs',
  MkdirAll_up rp fs = (Some e, fs') → fs' = fs.
Proof.
  induction rp as [|x up IH]; intros fs e fs'; cbn [MkdirAll_up].
  - destruct (fs !! reverse []) as [[d|]|]; by intros [= <-].
  - destruct (fs !! reverse (x :: up)) as [[d|]|]; [by intros [= <-]|done|].
    destruct (MkdirAll_up up fs) as [[e'|] fs1] eqn:Hup; [|done].
    intros [= <- <-]. by eapply IH.
Qed.

Lemma Create_lookup p fs k :
  k ≠ p → (os_Create p fs).2 !! k = fs !! k.
Proof.
  intros Hk. unfold os_Create.
  destruct (fs !! p) as [[d|]|]; try done;
    destruct p; try done; destruct (fs !! parent _) as [[?|]|]; try done;
    cbn; by rewrite lookup_insert_ne.
Qed.

Lemma Create_ok p fs fs' :
  os_Create p fs = (None, fs') → fs' = <[p := File []]> fs.
Proof.
  unfold os_Create.
  destruct (fs !! p) as [[d|]|]; try done;
    destruct p; try done; destruct (fs !! parent _) as [[?|]|]; try done;
    by intros [= <-].
Qed.

Lemma Create_not_dir p fs fs' :
  os_Create p fs = (None, fs') → fs !! p ≠ Some Dir.
Proof. unfold os_Create. by destruct (fs !! p) as [[d|]|]. Qed.

Lemma Create_error p fs e fs' :
  os_Create p fs = (Some e, fs') → fs' = fs.
Proof.
  unfold os_Create.
  destruct (fs !! p) as [[d|]|]; try (by intros [= <-]);
    destruct p; try (by intros [= <-]);
    destruct (fs !! parent _) as [[?|]|]; try done; by intros [= <-].
Qed.


Lemma child_of_Some p k v name n :
  child_of p (k, v) = Some (name, n) ↔ k = p ++ [name] ∧ v = n.
Proof.
  unfold child_of. cbn [fst snd]. split.
  - destruct (reverse k) as [|x rp] eqn:Hk; [done|].
    case_decide as Hp; [|done]. intros [= -> ->]. split; [|done].
    rewrite <-(reverse_involutive k), Hk, reverse_cons. by rewrite Hp.
  - intros [-> ->]. rewrite reverse_snoc.
    rewrite decide_True by apply reverse_involutive. done.
Qed.

#[local] Instance by_name_trans : Transitive by_name.
Proof. intros a b c. unfold by_name. apply transitivity. Qed.

#[local] Instance by_name_total : Total by_name.
Proof. intros a b. unfold by_name. apply total, _. Qed.

Lemma elem_of_ReadDir p fs entries name n :
  os_ReadDir p fs = inr entries →
  (name, n) ∈ entries ↔ fs !! (p ++ [name]) = Some n.
Proof.
  unfold os_ReadDir. destruct (fs !! p) as [[d|]|]; try done.
  intros [= <-]. rewrite merge_sort_Permutation, list_elem_of_omap. split.
  - intros ([k v] & Hkv & Hc). apply child_of_Some in Hc as [-> ->].
    by apply elem_of_map_to_list in Hkv.
  - intros Hn. exists (p ++ [name], n). split.
    + by apply elem_of_map_to_list.
    + by apply child_of_Some.
Qed.

Lemma ReadDir_is_dir p fs entries :
  os_ReadDir p fs = inr entries → fs !! p = Some Dir.
Proof. unfold os_ReadDir. by destruct (fs !! p) as [[d|]|]. Qed.

Lemma NoDup_children p fs : NoDup (omap (child_of p) (map_to_list fs)).
Proof.
  pose proof (NoDup_map_to_list fs) as Hnd.
  induction Hnd as [|[k v] l Hnotin Hnd IH]; cbn; [constructor|].
  destruct (child_of p (k, v)) as [[name n]|] eqn:Hc; [|done].
  constructor; [|done]. rewrite list_elem_of_omap.
  intros ([k' v'] & Hin & Hc').
  apply child_of_Some in Hc as [-> ->]. apply child_of_Some in Hc' as [-> ->].
  done.
Qed.

(** Directories with the same entries read the same. *)
Lemma ReadDir_agree p fs1 fs2 :
  is_Some (fs2 !! p) →
  fs1 !! p = fs2 !! p →
  (∀ name, fs1 !! (p ++ [name]) = fs2 !! (p ++ [name])) →
  os_ReadDir p fs1 = os_ReadDir p fs2.
Proof.
  intros Hsome Hp Hch. unfold os_ReadDir. rewrite <-Hp in Hsome |- *.
  destruct (fs1 !! p) as [[d|]|]; [done| |by destruct Hsome]. f_equal.
  apply (StronglySorted_unique_strong by_name).
  - intros [n1 e1] [n2 e2].
    rewrite !merge_sort_Permutation, !list_elem_of_omap.
    intros ([k1 v1] & Hin1 & Hc1) ([k2 v2] & Hin2 & Hc2) H12 H21.
    apply child_of_Some in Hc1 as [-> ->]. apply child_of_Some in Hc2 as [-> ->].
    apply elem_of_map_to_list in Hin1, Hin2.
    assert (n1 = n2) as -> by (by apply (anti_symm String.le)).
    rewrite Hch in Hin1. congruence.
  - apply StronglySorted_merge_sort; apply _.
  - apply StronglySorted_merge_sort; apply _.
  - rewrite !merge_sort_Permutation.
    apply NoDup_Permutation; [apply NoDup_children..|].
    intros [name n]. rewrite !list_elem_of_omap. split.
    + intros ([k v] & Hin & Hc). apply child_of_Some in Hc as [-> ->].
      apply elem_of_map_to_list in Hin. rewrite Hch in Hin.
      exists (p ++ [name], n). split; [by apply elem_of_map_to_list|by apply child_of_Some].
    + intros ([k v] & Hin & Hc). apply child_of_Some in Hc as [-> ->].
      apply elem_of_map_to_list in Hin. rewrite <-Hch in Hin.
      exists (p ++ [name], n). split; [by apply elem_of_map_to_list|by apply child_of_Some].
Qed.

Lemma dirIsEmpty_true p fs :
  dirIsEmpty p fs = inr true ↔
  fs !! p = Some Dir ∧ ∀ name, fs !! (p ++ [name]) = None.
Proof.
  unfold dirIsEmpty. split.
  - destruct (os_ReadDir p fs) as [e|entries] eqn:Hr; [done|].
    intros [= Hlen]. apply Nat.eqb_eq, nil_length_inv in Hlen. subst entries.
    split; [by eapply ReadDir_is_dir|]. intros name.
    destruct (fs !! (p ++ [name])) as [n|] eqn:Hn; [|done].
    apply (elem_of_ReadDir _ _ _ _ _ Hr) in Hn. by apply elem_of_nil in Hn.
  - intros [Hp Hnone].
    destruct (os_ReadDir p fs) as [e|entries] eqn:Hr.
    { unfold os_ReadDir in Hr. by rewrite Hp in Hr. }
    destruct entries as [|[name n] entries]; [done|].
    assert ((name, n) ∈ (name, n) :: entries) as Hin by left.
    apply (elem_of_ReadDir _ _ _ _ _ Hr) in Hin. by rewrite Hnone in Hin.
Qed.

Lemma dirIsEmpty_false p fs :
  dirIsEmpty p fs = inr false ↔
  fs !! p = Some Dir ∧ ∃ name, is_Some (fs !! (p ++ [name])).
Proof.
  unfold dirIsEmpty. split.
  - destruct (os_ReadDir p fs) as [e|entries] eqn:Hr; [done|].
    intros [= Hlen]. split; [by eapply ReadDir_is_dir|].
    destruct entries as [|[name n] entries]; [done|].
    exists name, n. apply (elem_of_ReadDir _ _ _ _ _ Hr). left.
  - intros (Hp & name & n & Hn).
    destruct (os_ReadDir p fs) as [e|entries] eqn:Hr.
    { unfold os_ReadDir in Hr. by rewrite Hp in Hr. }
    apply (elem_of_ReadDir _ _ _ _ _ Hr) in Hn.
    destruct entries; [by apply elem_of_nil in Hn|done].
Qed.

Lemma dirIsEmpty_agree p fs1 fs2 :
  is_Some (fs2 !! p) →
  fs1 !! p = fs2 !! p →
  (∀ name, fs1 !! (p ++ [name]) = fs2 !! (p ++ [name])) →
  dirIsEmpty p fs1 = dirIsEmpty p fs2.
Proof. intros. unfold dirIsEmpty. by rewrite (ReadDir_agree p fs1 fs2). Qed.

(** *** Paths that are not there *)

Lemma prefix_next (p q q' : path) c :
  p `prefix_of` q' → q' `prefix_of` q → p ++ [c] `prefix_of` q →
  q' = p ∨ p ++ [c] `prefix_of` q'.
Proof.
  intros [s ->] [t ->] [u Hu]. rewrite <-!app_assoc in Hu.
  apply app_inv_head in Hu. destruct s as [|x s].
  - left. by rewrite app_nil_r.
  - right. injection Hu as -> _. exists s. by rewrite <-app_assoc.
Qed.

(** The error for an absent path is decided by the first of its prefixes
    that is not a directory. *)
Lemma missing_spec fs rest : ∀ at_,
  fs !! (at_ ++ rest) = None →
  ∃ q, at_ `prefix_of` q ∧ q `prefix_of` at_ ++ rest
    ∧ (∀ q', at_ `prefix_of` q' → q' `prefix_of` q → q' ≠ q → fs !! q' = Some Dir)
    ∧ match fs !! q with
      | Some (File _) => missing fs at_ rest = ErrNotDir
      | Some Dir => False
      | None => missing fs at_ rest = ErrNotExist
      end.
Proof.
  induction rest as [|c rest IH]; intros at_ Hnone; cbn [missing].
  - rewrite app_nil_r in Hnone. exists at_. rewrite app_nil_r, Hnone.
    split_and!; try done. intros q' H1 H2 Hne. destruct Hne.
    by apply (anti_symm prefix).
  - destruct (fs !! at_) as [[d|]|] eqn:Hat.
    + exists at_. rewrite Hat. split_and!; [done|by apply prefix_app_r| |done].
      intros q' H1 H2 Hne. destruct Hne. by apply (anti_symm prefix).
    + destruct (IH (at_ ++ [c])) as (q & Hq1 & Hq2 & Hdirs & Hq).
      { by rewrite <-app_assoc. }
      exists q. split_and!; [|by rewrite <-app_assoc in Hq2| |done].
      * etrans; [|done]. by apply prefix_app_r.
      * intros q' H1 H2 Hne.
        destruct (prefix_next at_ q q' c) as [->|?]; auto.
    + exists at_. rewrite Hat. split_and!; [done|by apply prefix_app_r| |done].
      intros q' H1 H2 Hne. destruct Hne. by apply (anti_symm prefix).
Qed.

(** *** filepath.Join *)

Lemma parent_app p rel : rel ≠ [] → parent (p ++ rel) = p ++ parent rel.
Proof.
  intros Hrel. unfold parent. rewrite length_app.
  assert (0 < length rel)%nat by (destruct rel; [done|cbn; lia]).
  rewrite take_app_ge by lia. f_equal. f_equal. lia.
Qed.

(** Elements that stay in the directory lead to the same place below
    every directory. *)
Lemma descend_foldl cs : ∀ p rel0 rel,
  descend rel0 cs = Some rel → foldl enter (p ++ rel0) cs = p ++ rel.
Proof.
  induction cs as [|c cs IH]; intros p rel0 rel; cbn [descend foldl].
  { by intros [= <-]. }
  unfold enter. repeat case_decide; try (by apply IH).
  - destruct rel0 as [|x rel0]; [done|]. intros Hd.
    rewrite parent_app by done. by apply IH.
  - intros Hd. rewrite <-app_assoc. by apply IH.
Qed.

Lemma relative_Join p id rel :
  relative id = Some rel → filepath_Join p [id] = p ++ rel.
Proof.
  unfold relative, filepath_Join. cbn. rewrite app_nil_r. intros Hd.
  rewrite <-(app_nil_r p) at 1. by apply descend_foldl.
Qed.

Lemma relative_Join_file p id rel c :
  relative id = Some rel → relative c = Some [c] →
  filepath_Join p [id; c] = p ++ rel ++ [c].
Proof.
  unfold relative, filepath_Join. cbn. rewrite app_nil_r, foldl_app.
  intros Hid Hc. rewrite <-(app_nil_r p) at 1.
  rewrite (descend_foldl _ p [] rel Hid).
  rewrite <-(app_nil_r (p ++ rel)) at 1.
  rewrite (descend_foldl _ (p ++ rel) [] [c] Hc). by rewrite <-app_assoc.
Qed.

End fs_facts.

Section order_facts.
Import snapshot.

Lemma String_ltb_lexico s1 : ∀ s2,
  String.ltb s1 s2 = true ↔ lexico (id_bytes s1) (id_bytes s2).
Proof.
  unfold String.ltb.
  induction s1 as [|a s1 IH]; intros [|b s2]; cbn; try done.
  unfold Ascii.compare.
  destruct (N.compare_spec (Ascii.N_of_ascii a) (Ascii.N_of_ascii b)) as [Heq|Hlt|Hgt].
  - rewrite IH. unfold lexico at 2, list_lexico, lexico, prod_lexico. cbn.
    rewrite Heq. split; [by right|]. intros [Hlt|[_ ?]]; [|done].
    unfold lexico, N_lexico in Hlt. lia.
  - split; [|done]. intros _. by left.
  - split; [done|]. intros [Hlt|[Heq _]].
    + unfold lexico, N_lexico in Hlt. cbn [fst] in Hlt. lia.
    + cbn [fst] in Heq. lia.
Qed.

Lemma Less_older a b : Less a b = true ↔ older a b.
Proof.
  unfold Less, older, ordering_key.
  unfold lexico at 1, prod_lexico. cbn [fst snd].
  unfold lexico at 2, prod_lexico. cbn [fst snd].
  unfold lexico at 1 2, N_lexico.
  rewrite <-String_ltb_lexico.
  destruct (N.eqb_spec (Term a) (Term b)) as [Ht|Ht]; cbn.
  - destruct (N.eqb_spec (Index a) (Index b)) as [Hi|Hi]; cbn.
    + split; [by right; split; [|right]|]. intros [?|[_ [?|[_ ?]]]]; [lia..|done].
    + rewrite N.ltb_lt. split; [by right; split; [|left]|].
      intros [?|[_ [?|[? _]]]]; [lia|done|done].
  - rewrite N.ltb_lt. split; [by left|]. intros [?|[? _]]; done.
Qed.

Lemma older_irrefl a : ¬ older a a.
Proof. unfold older. apply irreflexivity, _. Qed.

Lemma older_trans a b c : older a b → older b c → older a c.
Proof. unfold older. apply transitivity. Qed.

Lemma older_total a b :
  older a b ∨ ordering_key a = ordering_key b ∨ older b a.
Proof.
  unfold older.
  destruct (trichotomyT lexico (ordering_key a) (ordering_key b)) as [[?|?]|?]; auto.
Qed.

Lemma not_Less_trans a b c :
  Less b a = false → Less c b = false → Less c a = false.
Proof.
  rewrite <-!not_true_iff_false, !Less_older. intros Hba Hcb Hca.
  destruct (older_total a b) as [Hab|[Heq|Hab]]; [|..|done].
  - apply Hcb. by eapply older_trans.
  - unfold older in *. rewrite Heq in Hca. done.
Qed.

Lemma not_Less_total a b : Less b a = false ∨ Less a b = false.
Proof.
  rewrite <-!not_true_iff_false, !Less_older.
  destruct (older_total a b) as [Hab|[Heq|Hab]].
  - left. intros Hba. by eapply older_irrefl, older_trans.
  - left. unfold older. rewrite Heq. apply irreflexivity, _.
  - right. intros Hba. by eapply older_irrefl, older_trans.
Qed.

End order_facts.

Section package_facts.
Import snapshot.
Context `{Layout, Library, Gzip}.
Implicit Types (fs : FS) (p q k old new : path).

Lemma Newest_greatest `{!SortLaws} l m :
  Newest l = Some m → m ∈ l ∧ ∀ m', m' ∈ l → ¬ older m m'.
Proof.
  unfold Newest. destruct (length l =? 0)%nat; [done|].
  intros Hlast. apply last_Some in Hlast as [l' Hl'].
  pose proof (sort_Sort_Sorted l) as Hsorted.
  pose proof (sort_Sort_Permutation l) as Hperm.
  rewrite Hl' in Hsorted, Hperm. split.
  - rewrite <-Hperm. set_solver.
  - intros m'. rewrite <-Hperm, elem_of_app, list_elem_of_singleton.
    rewrite <-Less_older. intros [Hin| ->].
    + apply StronglySorted_app in Hsorted as (Hle & _ & _).
      rewrite (Hle m' m Hin); [done|set_solver].
    + rewrite Less_older. apply older_irrefl.
Qed.

Lemma Newest_is_Some `{!SortLaws} l : l ≠ [] → is_Some (Newest l).
Proof.
  intros Hl. unfold Newest. destruct l as [|x l]; [done|]. cbn [length Nat.eqb].
  pose proof (sort_Sort_Permutation (x :: l)) as Hperm.
  destruct (sort_Sort Less (x :: l)) as [|y l'] eqn:Hs.
  - by apply Permutation_nil_cons in Hperm.
  - rewrite last_is_Some. done.
Qed.

Lemma scan_entries_spec dir fs entries : ∀ acc l,
  scan_entries dir entries fs acc = inr l →
  ∃ added, l = acc ++ added ∧
    ∀ m, m ∈ added ↔
      ∃ name data, (name, Dir) ∈ entries
        ∧ fs !! (dir ++ [name; metaFileName]) = Some (File data)
        ∧ json_Decode data = Some m.
Proof.
  induction entries as [|[name entry] entries IH]; intros acc l; cbn [scan_entries].
  - intros [= <-]. exists []. rewrite app_nil_r. split; [done|].
    intros m. split; [by intros ?%elem_of_nil|]. by intros (? & ? & ?%elem_of_nil & _).
  - destruct entry as [d|].
    { intros (added & -> & Hadded)%IH. exists added. split; [done|].
      intros m. rewrite Hadded. split.
      - intros (n' & d' & Hin & ?). exists n', d'. split; [by right|done].
      - intros (n' & d' & Hin & ?). apply elem_of_cons in Hin as [[=]|Hin].
        by exists n', d'. }
    unfold fileExists, os_Open.
    destruct (fs !! (dir ++ [name; metaFileName])) as [fh|] eqn:Hfh.
    + rewrite bool_decide_eq_true_2 by done. cbn [negb].
      destruct fh as [data|]; cbn [decode_meta]; [|done].
      destruct (json_Decode data) as [meta|] eqn:Hdec; [|done].
      intros (added & -> & Hadded)%IH. exists (meta :: added).
      split; [by rewrite <-app_assoc|].
      intros m. rewrite elem_of_cons, Hadded. split.
      * intros [->|(n' & d' & Hin & ?)].
        -- exists name, data. split; [left|done].
        -- exists n', d'. split; [by right|done].
      * intros (n' & d' & Hin & Hl & Hd). apply elem_of_cons in Hin as [[= ->]|Hin].
        -- left. congruence.
        -- right. by exists n', d'.
    + rewrite bool_decide_eq_false_2 by (by intros [??]). cbn [negb].
      intros (added & -> & Hadded)%IH. exists added. split; [done|].
      intros m. rewrite Hadded. split.
      * intros (n' & d' & Hin & ?). exists n', d'. split; [by right|done].
      * intros (n' & d' & Hin & Hl & Hd). apply elem_of_cons in Hin as [[= ->]|Hin].
        -- congruence.
        -- by exists n', d'.
Qed.

Lemma scan_entries_agree dir fs1 fs2 entries : ∀ acc,
  (∀ k, dir `prefix_of` k → fs1 !! k = fs2 !! k) →
  scan_entries dir entries fs1 acc = scan_entries dir entries fs2 acc.
Proof.
  intros acc Hagree. revert acc.
  induction entries as [|[name entry] entries IH]; intros acc; cbn [scan_entries]; [done|].
  destruct entry; [done|]. unfold fileExists, os_Open.
  rewrite (Hagree (dir ++ [name; metaFileName])) by (by apply prefix_app_r).
  destruct (fs2 !! _) as [fh|]; cbn; [|done].
  destruct (decode_meta fh); done.
Qed.

Lemma getNewest7Snapshot_agree old fs1 fs2 :
  is_Some (fs2 !! old) →
  (∀ k, old `prefix_of` k → fs1 !! k = fs2 !! k) →
  getNewest7Snapshot old fs1 = getNewest7Snapshot old fs2.
Proof.
  intros Hsome Hagree. unfold getNewest7Snapshot.
  rewrite (ReadDir_agree old fs1 fs2).
  - destruct (os_ReadDir old fs2); [done|].
    by rewrite (scan_entries_agree old fs1 fs2).
  - done.
  - by apply Hagree.
  - intros name. apply Hagree. by apply prefix_app_r.
Qed.

(** The selection step: a snapshot is returned exactly when there is a
    record, and then it is a record that no other record is newer than. *)
Lemma getNewest7Snapshot_spec `{!SortLaws} old fs r :
  getNewest7Snapshot old fs = inr r →
  match r with
  | Some m => legacy_record old fs m ∧ ∀ m', legacy_record old fs m' → ¬ older m m'
  | None => ∀ m', ¬ legacy_record old fs m'
  end.
Proof.
  unfold getNewest7Snapshot.
  destruct (os_ReadDir old fs) as [e|entries] eqn:Hr; [done|].
  destruct (scan_entries old entries fs []) as [e|l] eqn:Hs; [done|].
  apply scan_entries_spec in Hs as (added & -> & Hadded). cbn [app].
  assert (∀ m, m ∈ added ↔ legacy_record old fs m) as Hrec.
  { intros m. rewrite Hadded. unfold legacy_record. split.
    - intros (name & data & Hin & ? & ?). exists name, data.
      by apply (elem_of_ReadDir _ _ _ _ _ Hr) in Hin.
    - intros (name & data & Hin & ? & ?). exists name, data.
      by apply (elem_of_ReadDir _ _ _ _ _ Hr) in Hin. }
  destruct added as [|x added]; cbn [length Nat.eqb].
  - intros [= <-]. intros m' Hm'. apply Hrec in Hm'. by apply elem_of_nil in Hm'.
  - intros [= <-].
    destruct (Newest_is_Some (x :: added)) as [m Hm]; [done|]. rewrite Hm.
    apply Newest_greatest in Hm as [Hin Hmax]. split; [by apply Hrec|].
    intros m' Hm'. by apply Hmax, Hrec.
Qed.

Lemma getNewest7Snapshot_no_record old fs :
  (∀ m, ¬ legacy_record old fs m) →
  getNewest7Snapshot old fs = inr None ∨ ∃ e, getNewest7Snapshot old fs = inl e.
Proof.
  intros Hnone. unfold getNewest7Snapshot.
  destruct (os_ReadDir old fs) as [e|entries] eqn:Hr; [by right; eexists|].
  destruct (scan_entries old entries fs []) as [e|l] eqn:Hs; [by right; eexists|].
  apply scan_entries_spec in Hs as (added & -> & Hadded). cbn [app].
  destruct added as [|x added]; [by left|].
  exfalso. apply (Hnone x).
  destruct (proj1 (Hadded x)) as (name & data & Hin & ? & ?); [left|].
  exists name, data. by apply (elem_of_ReadDir _ _ _ _ _ Hr) in Hin.
Qed.

(** *** When the selection fails *)

Lemma scan_entries_error dir fs entries : ∀ acc e,
  scan_entries dir entries fs acc = inl e →
  ∃ name fh, (name, Dir) ∈ entries
    ∧ fs !! (dir ++ [name; metaFileName]) = Some fh
    ∧ decode_meta fh = inl e.
Proof.
  induction entries as [|[name entry] entries IH]; intros acc e; cbn [scan_entries];
    [done|].
  destruct entry as [d|].
  { intros (n & fh & ? & ?)%IH. exists n, fh. split; [by right|done]. }
  unfold fileExists, os_Open.
  destruct (fs !! (dir ++ [name; metaFileName])) as [fh|] eqn:Hfh.
  - rewrite bool_decide_eq_true_2 by done. cbn [negb].
    destruct (decode_meta fh) as [e'|meta] eqn:Hdec.
    + intros [= <-]. exists name, fh. split; [left|done].
    + intros (n & fh' & ? & ?)%IH. exists n, fh'. split; [by right|done].
  - rewrite bool_decide_eq_false_2 by (by intros [??]). cbn [negb].
    intros (n & fh' & ? & ?)%IH. exists n, fh'. split; [by right|done].
Qed.

Lemma scan_entries_bad dir fs entries name fh e : ∀ acc,
  (name, Dir) ∈ entries →
  fs !! (dir ++ [name; metaFileName]) = Some fh →
  decode_meta fh = inl e →
  ∃ e', scan_entries dir entries fs acc = inl e'.
Proof.
  intros acc Hin Hfh Hdec. revert acc.
  induction entries as [|[name' entry] entries IH]; intros acc; cbn [scan_entries].
  { by apply elem_of_nil in Hin. }
  apply elem_of_cons in Hin as [[= <- <-]|Hin].
  - unfold fileExists, os_Open. rewrite Hfh.
    rewrite bool_decide_eq_true_2 by done. cbn [negb]. rewrite Hdec. by eexists.
  - destruct entry as [d|]; [by apply IH|].
    unfold fileExists, os_Open.
    destruct (fs !! (dir ++ [name'; metaFileName])) as [fh'|] eqn:Hfh'.
    + rewrite bool_decide_eq_true_2 by done. cbn [negb].
      destruct (decode_meta fh'); [by eexists|by apply IH].
    + rewrite bool_decide_eq_false_2 by (by intros [??]). by apply IH.
Qed.

Lemma getNewest7Snapshot_error_in_dir old fs :
  fs !! old = Some Dir →
  (∃ e, getNewest7Snapshot old fs = inl e) ↔
  ∃ name fh e, fs !! (old ++ [name]) = Some Dir
    ∧ fs !! (old ++ [name; metaFileName]) = Some fh
    ∧ decode_meta fh = inl e.
Proof.
  intros Hold. unfold getNewest7Snapshot.
  destruct (os_ReadDir old fs) as [e|entries] eqn:Hrd.
  { unfold os_ReadDir in Hrd. by rewrite Hold in Hrd. }
  split.
  - intros [e He].
    destruct (scan_entries old entries fs []) as [e'|l] eqn:Hs.
    + apply scan_entries_error in Hs as (name & fh & Hin & ? & ?).
      exists name, fh, e'. by apply (elem_of_ReadDir _ _ _ _ _ Hrd) in Hin.
    + by destruct (length l =? 0)%nat.
  - intros (name & fh & e & Hdir & Hfh & Hdec).
    apply (elem_of_ReadDir _ _ _ _ _ Hrd) in Hdir.
    destruct (scan_entries_bad old fs entries name fh e [] Hdir Hfh Hdec) as [e' ->].
    by eexists.
Qed.

(** *** The temporary root *)

Lemma String_app_id_inv (x s : string) : x +:+ s = x → s = "".
Proof. induction x as [|a x IH]; cbn; [done|]. intros [= Hx]. auto. Qed.

Lemma tmpName_not_prefix new :
  tmpSuffix ≠ "" → ¬ tmpName new `prefix_of` new.
Proof.
  intros Hsuffix. induction new as [|x [|y new] IH]; cbn [tmpName].
  - intros Hp. by apply prefix_nil_inv in Hp.
  - intros Hp%prefix_cons_inv_1. by apply String_app_id_inv in Hp.
  - intros Hp%prefix_cons_inv_2. by apply IH.
Qed.

Lemma tmpName_not_below new :
  tmpSuffix ≠ "" → new ≠ [] → ¬ new `prefix_of` tmpName new.
Proof.
  intros Hsuffix. induction new as [|x [|y new] IH]; cbn [tmpName]; [done|..].
  - intros _ Hp%prefix_cons_inv_1. symmetry in Hp.
    by apply String_app_id_inv in Hp.
  - intros _ Hp%prefix_cons_inv_2. by apply IH.
Qed.

Lemma tmpName_apart new :
  tmpSuffix ≠ "" → new ≠ [] → apart (tmpName new) new.
Proof. split; [by apply tmpName_not_prefix|by apply tmpName_not_below]. Qed.

(** *** What a run may change *)

Lemma only_tmp_refl tmp fs : only_tmp tmp fs fs.
Proof. intros k. by left. Qed.

Lemma only_tmp_trans tmp fs1 fs2 fs3 :
  only_tmp tmp fs1 fs2 → only_tmp tmp fs2 fs3 → only_tmp tmp fs1 fs3.
Proof.
  intros H12 H23 k. destruct (H12 k) as [E1|[?|(? & ? & ?)]], (H23 k) as [E2|[?|(? & ? & ?)]];
    try (by right; left).
  - left. congruence.
  - right; right. rewrite <-E1. done.
  - right; right. rewrite E2. done.
  - congruence.
Qed.

Lemma only_tmp_apart tmp fs fs' k :
  only_tmp tmp fs fs' → apart tmp k → fs' !! k = fs !! k.
Proof. intros Ho [??]. destruct (Ho k) as [?|[?|(? & _)]]; done. Qed.

Lemma only_tmp_MkdirAll tmp rest fs :
  only_tmp tmp fs (os_MkdirAll (tmp ++ rest) fs).2.
Proof.
  intros k. destruct (MkdirAll_lookup (tmp ++ rest) fs k) as [?|(? & ? & Hk)]; [by left|].
  destruct (prefix_comparable k tmp (tmp ++ rest)) as [?|?];
    [done|by apply prefix_app_r|by right; right|by right; left].
Qed.

Lemma only_tmp_insert tmp rest n fs :
  only_tmp tmp fs (<[tmp ++ rest := n]> fs).
Proof.
  intros k. destruct (decide (k = tmp ++ rest)) as [->|Hk].
  - right; left. by apply prefix_app_r.
  - left. by rewrite lookup_insert_ne.
Qed.

Lemma only_tmp_Create tmp rest fs :
  only_tmp tmp fs (os_Create (tmp ++ rest) fs).2.
Proof.
  intros k. destruct (decide (k = tmp ++ rest)) as [->|Hk].
  - right; left. by apply prefix_app_r.
  - left. by apply Create_lookup.
Qed.

Lemma only_tmp_writeMeta tmp rest meta fs :
  only_tmp tmp fs (writeMeta (tmp ++ rest) meta fs).2.
Proof.
  unfold writeMeta. rewrite <-app_assoc.
  pose proof (only_tmp_Create tmp (rest ++ [metaFileName]) fs) as Hc.
  destruct (os_Create _ fs) as [[e|] fs1]; [done|]. cbn [snd] in *.
  eapply only_tmp_trans; [done|]. apply only_tmp_insert.
Qed.

Lemma only_tmp_sqlite tmp rest old oldMeta fs :
  only_tmp tmp fs (Upgrade_sqlite old (tmp ++ rest) oldMeta fs).2.
Proof.
  unfold Upgrade_sqlite. rewrite <-app_assoc.
  pose proof (only_tmp_Create tmp (rest ++ [baseSqliteFile]) fs) as Hc.
  destruct (os_Create _ fs) as [[e|] fs1]; [done|]. cbn [snd] in *.
  destruct (os_Open _ fs1) as [e|[state|]]; [done| |done].
  destruct (gzip_NewReader _) as [e|out rerr]; [done|].
  assert (only_tmp tmp fs (<[tmp ++ rest ++ [baseSqliteFile] := File out]> fs1)).
  { eapply only_tmp_trans; [done|]. apply only_tmp_insert. }
  destruct rerr; [done|]. by destruct (negb _).
Qed.

(** The construction writes at and below the snapshot directory of the
    selected record and into the first generation: when that snapshot
    directory lies in the temporary root, so does all it changes. *)
Lemma only_tmp_build old new fs :
  (∀ fs1 m, os_MkdirAll (tmpName new) fs = (None, fs1) →
     getNewest7Snapshot old fs1 = inr (Some m) →
     tmpName new `prefix_of` newSnapshotPath new m) →
  only_tmp (tmpName new) fs (Upgrade_build old new fs).2.
Proof.
  intros Hin. unfold Upgrade_build.
  pose proof (only_tmp_MkdirAll (tmpName new) [] fs) as Hm. rewrite app_nil_r in Hm.
  destruct (os_MkdirAll (tmpName new) fs) as [[e|] fs1] eqn:Hmk; [done|].
  cbn [snd] in Hm.
  destruct (getNewest7Snapshot old fs1) as [e|[oldMeta|]] eqn:Hsel; [done| |done].
  destruct (Hin fs1 oldMeta eq_refl Hsel) as [rest Hrest].
  unfold newSnapshotPath in Hrest. rewrite Hrest.
  pose proof (only_tmp_MkdirAll (tmpName new) rest fs1) as Hm2.
  destruct (os_MkdirAll _ fs1) as [[e|] fs2]; cbn [snd] in Hm2.
  { by eapply only_tmp_trans. }
  pose proof (only_tmp_writeMeta (tmpName new) rest (mkMeta oldMeta true) fs2) as Hw.
  destruct (writeMeta _ _ fs2) as [[e|] fs3]; cbn [snd] in Hw.
  { eapply only_tmp_trans; [done|]. by eapply only_tmp_trans. }
  pose proof (only_tmp_sqlite (tmpName new) [generationsDir; firstGeneration]
                old oldMeta fs3) as Hs.
  eapply only_tmp_trans; [done|]. eapply only_tmp_trans; [done|].
  by eapply only_tmp_trans.
Qed.

Lemma cleanup_lookup new fs k :
  Upgrade_cleanup new fs !! k = fs !! k
  ∨ (tmpName new `prefix_of` k ∧ Upgrade_cleanup new fs !! k = None).
Proof.
  unfold Upgrade_cleanup. destruct (dirExists _ fs); [|by left].
  rewrite lookup_RemoveAll. case_decide; [by right|by left].
Qed.

Lemma only_tmp_cleanup new fs : only_tmp (tmpName new) fs (Upgrade_cleanup new fs).
Proof. intros k. destruct (cleanup_lookup new fs k) as [?|[? _]]; [by left|by right; left]. Qed.

Lemma cleanup_subseteq new fs : Upgrade_cleanup new fs ⊆ fs.
Proof.
  unfold Upgrade_cleanup. destruct (dirExists _ fs); [|done]. apply RemoveAll_subseteq.
Qed.

Lemma cleanup_no_tmp new fs : dirExists (tmpName new) (Upgrade_cleanup new fs) = false.
Proof.
  unfold Upgrade_cleanup. destruct (dirExists (tmpName new) fs) eqn:Hd; [|done].
  unfold dirExists. by rewrite lookup_RemoveAll_below.
Qed.

Lemma cleanup_idemp new fs :
  Upgrade_cleanup new (Upgrade_cleanup new fs) = Upgrade_cleanup new fs.
Proof. unfold Upgrade_cleanup at 1. by rewrite cleanup_no_tmp. Qed.


(** *** The commit *)

Lemma Rename_error p q fs e fs' : os_Rename p q fs = (Some e, fs') → fs' = fs.
Proof.
  unfold os_Rename. destruct (fs !! p); [|by intros [= <-]].
  case_decide; [|by intros [= <-]]. case_decide; [|by intros [= <-]].
  destruct (fs !! parent q) as [[?|]|]; [by intros [= <-]|done|by intros [= <-]].
Qed.

Lemma Rename_ok p q fs fs' :
  os_Rename p q fs = (None, fs') →
  apart p q ∧ ∀ s, fs' !! (q ++ s) = fs !! (p ++ s).
Proof.
  unfold os_Rename. destruct (fs !! p); [|done].
  case_decide as Hapart; [|done]. case_decide; [|done].
  destruct (fs !! parent q) as [[?|]|]; [done| |done]. intros [= <-].
  split; [done|]. intros s.
  replace (q ++ s) with (rekey p q (p ++ s)); [apply lookup_kmap, _|].
  unfold rekey. rewrite decide_True by done.
  rewrite decide_True by (by apply prefix_app_r). by rewrite drop_app_length.
Qed.

Lemma commit_error old new fs e fs' :
  Upgrade_commit old new fs = (Some e, fs') → fs' = fs.
Proof.
  unfold Upgrade_commit.
  destruct (os_Rename _ _ fs) as [[e'|] fs1] eqn:Hr; [|done].
  intros [= <- <-]. by eapply Rename_error.
Qed.

Lemma commit_ok old new fs fs' :
  Upgrade_commit old new fs = (None, fs') →
  ∀ s, ¬ old `prefix_of` new ++ s → fs' !! (new ++ s) = fs !! (tmpName new ++ s).
Proof.
  unfold Upgrade_commit.
  destruct (os_Rename _ _ fs) as [[e'|] fs1] eqn:Hr; [done|].
  intros [= <-] s Hs. apply Rename_ok in Hr as [_ Hr].
  by rewrite lookup_RemoveAll_other, Hr.
Qed.

(** *** Upgrade *)

Lemma Upgrade_cleanup_first old new fs :
  Upgrade old new fs = Upgrade old new (Upgrade_cleanup new fs).
Proof. unfold Upgrade. by rewrite cleanup_idemp. Qed.

(** The tree below [old] after the cleanup, when the temporary root is
    elsewhere. *)
Lemma cleanup_below_old old new fs k :
  apart old (tmpName new) → old `prefix_of` k →
  Upgrade_cleanup new fs !! k = fs !! k.
Proof.
  intros Hold Hk. eapply only_tmp_apart; [apply only_tmp_cleanup|].
  by eapply apart_below; [apply apart_sym|].
Qed.

(** The selection sees [old] as it was before the call. *)
Lemma build_selection old new fs fs1 :
  apart old (tmpName new) → is_Some (fs !! old) →
  os_MkdirAll (tmpName new) (Upgrade_cleanup new fs) = (None, fs1) →
  getNewest7Snapshot old fs1 = getNewest7Snapshot old fs.
Proof.
  intros Hold Hsome Hm. apply getNewest7Snapshot_agree; [done|]. intros k Hk.
  eapply only_tmp_apart; [|by eapply apart_below; [apply apart_sym|]].
  eapply only_tmp_trans; [apply only_tmp_cleanup|].
  pose proof (only_tmp_MkdirAll (tmpName new) [] (Upgrade_cleanup new fs)) as Ho.
  by rewrite app_nil_r, Hm in Ho.
Qed.

(** What the construction changes after the cleanup, when the snapshot
    directory of the record that the selection returns for the tree as it
    was lies in the temporary root. *)
Lemma only_tmp_build_after_cleanup old new fs :
  apart old (tmpName new) → is_Some (fs !! old) →
  (∀ m, getNewest7Snapshot old fs = inr (Some m) →
     tmpName new `prefix_of` newSnapshotPath new m) →
  only_tmp (tmpName new) fs (Upgrade_build old new (Upgrade_cleanup new fs)).2.
Proof.
  intros Hold Hsome Hin.
  eapply only_tmp_trans; [apply only_tmp_cleanup|].
  apply only_tmp_build. intros fs1 m Hmk Hsel. apply Hin.
  by rewrite <-(build_selection old new fs fs1).
Qed.

Lemma dirExists_cleanup_old old new fs :
  apart old (tmpName new) →
  dirExists old (Upgrade_cleanup new fs) = dirExists old fs.
Proof. intros Hold. unfold dirExists. by rewrite (cleanup_below_old old). Qed.

Lemma only_tmp_Upgrade_error old new fs e fs' :
  apart old (tmpName new) →
  (∀ m, getNewest7Snapshot old fs = inr (Some m) →
     tmpName new `prefix_of` newSnapshotPath new m) →
  Upgrade old new fs = (Some e, fs') → only_tmp (tmpName new) fs fs'.
Proof.
  intros Hold Hin. unfold Upgrade. pose proof (only_tmp_cleanup new fs) as Hc.
  rewrite dirExists_cleanup_old by done.
  destruct (dirExists old fs) eqn:Hd; [|done].
  apply bool_decide_eq_true in Hd.
  destruct (dirIsEmpty old _) as [e'|[|]]; [by intros [= <- <-]|done|].
  destruct (dirExists new _); [done|].
  pose proof (only_tmp_build_after_cleanup old new fs Hold) as Hb.
  destruct (Upgrade_build old new _) as [[e'|] fs1]; cbn [snd] in Hb.
  - intros [= <- <-]. apply Hb; [by rewrite Hd|done].
  - intros ->%commit_error. apply Hb; [by rewrite Hd|done].
Qed.

(** An error return leaves everything below the two roots as it was, when
    the snapshot directory of the selected record lies in the temporary
    root. *)
Lemma Upgrade_error_frame old new fs e fs' :
  tmpSuffix ≠ "" → new ≠ [] → apart old (tmpName new) →
  (∀ m, getNewest7Snapshot old fs = inr (Some m) →
     tmpName new `prefix_of` newSnapshotPath new m) →
  Upgrade old new fs = (Some e, fs') →
  (∀ k, old `prefix_of` k → fs' !! k = fs !! k)
  ∧ (∀ k, new `prefix_of` k → fs' !! k = fs !! k).
Proof.
  intros Hsuffix Hnew Hold Hin Hup.
  pose proof (only_tmp_Upgrade_error _ _ _ _ _ Hold Hin Hup) as Honly. split.
  - intros k Hk. eapply only_tmp_apart; [done|].
    by eapply apart_below; [apply apart_sym|].
  - intros k Hk. eapply only_tmp_apart; [done|].
    by eapply apart_below; [apply tmpName_apart|].
Qed.

(** C1, as amended: when [Upgrade] returns an error and the snapshot
    directory of the record that the selection returns (its ID joined to
    the first generation of the temporary root) lies in the temporary
    root, the tree below [oldRoot] is unchanged and [newRoot] is not
    created: nothing at or below it has changed.  What differs lies at or
    below the temporary root (newRoot with the reserved suffix), apart from
    directories that [MkdirAll] had to create on the way to it, of which
    there are none when the ancestors of the temporary root exist.  The
    next call of [Upgrade] starts by removing the temporary directory: it
    runs as on the tree without it.  The two roots are taken to be
    unrelated paths: [oldRoot] and the temporary root do not contain each
    other.  In this model the steps after the rename cannot fail, so an
    error return is one from before the rename or from the rename itself.
    An ID that is a file name satisfies the condition, and so does every
    ID that does not lead out of the first generation. *)
Theorem Upgrade_failure_leaves_roots old new fs e fs' :
  tmpSuffix ≠ "" → new ≠ [] → apart old (tmpName new) →
  (∀ m, getNewest7Snapshot old fs = inr (Some m) →
     tmpName new `prefix_of` newSnapshotPath new m) →
  Upgrade old new fs = (Some e, fs') →
  (∀ k, old `prefix_of` k → fs' !! k = fs !! k)
  ∧ (∀ k, new `prefix_of` k → fs' !! k = fs !! k)
  ∧ only_tmp (tmpName new) fs fs'
  ∧ ((∀ k, k `prefix_of` tmpName new → k ≠ tmpName new → is_Some (fs !! k)) →
     ∀ k, fs' !! k ≠ fs !! k → tmpName new `prefix_of` k)
  ∧ Upgrade old new fs' = Upgrade old new (Upgrade_cleanup new fs')
  ∧ dirExists (tmpName new) (Upgrade_cleanup new fs') = false.
Proof.
  intros Hsuffix Hnew Hold Hin Hup.
  pose proof (only_tmp_Upgrade_error _ _ _ _ _ Hold Hin Hup) as Honly.
  destruct (Upgrade_error_frame old new fs e fs') as [Ho Hn]; [done..|].
  split_and!; try done.
  - intros Hanc k Hk. destruct (Honly k) as [?|[?|(Hpre & Hnone & _)]]; [done..|].
    destruct (decide (k = tmpName new)) as [->|Hne]; [done|].
    destruct (Hanc k Hpre Hne) as [n Hn']. congruence.
  - apply Upgrade_cleanup_first.
  - apply cleanup_no_tmp.
Qed.

Lemma dirExists_cleanup_new new fs :
  tmpSuffix ≠ "" →
  dirExists new (Upgrade_cleanup new fs) = dirExists new fs.
Proof.
  intros Hsuffix. unfold dirExists.
  destruct (cleanup_lookup new fs new) as [->|[Hp _]]; [done|].
  by apply tmpName_not_prefix in Hp.
Qed.

Lemma dirIsEmpty_dirExists p fs b : dirIsEmpty p fs = inr b → dirExists p fs = true.
Proof.
  unfold dirIsEmpty, dirExists.
  destruct (os_ReadDir p fs) eqn:Hr; [done|]. intros _.
  apply ReadDir_is_dir in Hr. by apply bool_decide_eq_true.
Qed.

Lemma dirExists_dirIsEmpty p fs :
  dirExists p fs = true → ∃ b, dirIsEmpty p fs = inr b.
Proof.
  unfold dirExists, dirIsEmpty, os_ReadDir. intros ->%bool_decide_eq_true.
  by eexists.
Qed.

Lemma cleanup_removed_below new fs p k :
  Upgrade_cleanup new fs !! p ≠ fs !! p → p `prefix_of` k →
  Upgrade_cleanup new fs !! k = None.
Proof.
  unfold Upgrade_cleanup. destruct (dirExists _ fs); [|done].
  rewrite lookup_RemoveAll. case_decide; [|done]. intros _ Hk.
  apply lookup_RemoveAll_below. by etrans.
Qed.

(** [old] is a directory, and empty or beside an existing [new]: it is
    removed and nothing else happens. *)
Lemma Upgrade_removes_old old new fs :
  dirExists old fs = true →
  dirIsEmpty old fs = inr true ∨ (tmpSuffix ≠ "" ∧ dirExists new fs = true) →
  Upgrade old new fs = (None, os_RemoveAll old (Upgrade_cleanup new fs)).
Proof.
  intros Hold Hcase. unfold Upgrade.
  destruct (dirExists old (Upgrade_cleanup new fs)) eqn:Hd.
  - destruct (dirExists_dirIsEmpty _ _ Hd) as [b Hb]. rewrite Hb.
    destruct b; [done|]. destruct Hcase as [Hempty|[Hsuffix Hnew]].
    + exfalso. apply dirIsEmpty_true in Hempty as [_ Hnone].
      apply dirIsEmpty_false in Hb as (_ & name & n & Hn).
      destruct (cleanup_lookup new fs (old ++ [name])) as [Heq|[_ ?]]; [|congruence].
      rewrite Heq, Hnone in Hn. done.
    + by rewrite dirExists_cleanup_new, Hnew.
  - f_equal. symmetry. apply RemoveAll_absent. intros k Hk.
    apply (cleanup_removed_below new fs old); [|done].
    apply bool_decide_eq_true in Hold. apply bool_decide_eq_false in Hd. congruence.
Qed.

(** C6: the three cases in which there is nothing to upgrade, each ending
    the call with success.  When [oldRoot] is not a directory the tree is
    left as the cleanup of the temporary root left it.  When [oldRoot] is an
    empty directory it is deleted and nothing is created.  When [oldRoot]
    is not empty and [newRoot] is a directory, [oldRoot] is deleted and
    everything at and below [newRoot] is as it was ([newRoot] not lying in
    [oldRoot], nor [oldRoot] in it). *)
Theorem Upgrade_trivial_cases old new fs :
  let done_fs := os_RemoveAll old (Upgrade_cleanup new fs) in
  (dirExists old fs = false →
     Upgrade old new fs = (None, Upgrade_cleanup new fs))
  ∧ (dirIsEmpty old fs = inr true →
     Upgrade old new fs = (None, done_fs)
     ∧ (∀ k, old `prefix_of` k → done_fs !! k = None)
     ∧ done_fs ⊆ fs)
  ∧ (tmpSuffix ≠ "" → apart old new →
     dirIsEmpty old fs = inr false → dirExists new fs = true →
     Upgrade old new fs = (None, done_fs)
     ∧ (∀ k, old `prefix_of` k → done_fs !! k = None)
     ∧ (∀ k, new `prefix_of` k → done_fs !! k = fs !! k)).
Proof.
  cbv zeta. split_and!.
  - intros Hno. unfold Upgrade.
    destruct (dirExists old (Upgrade_cleanup new fs)) eqn:Hd; [|done].
    apply bool_decide_eq_true in Hd. apply bool_decide_eq_false in Hno.
    destruct (cleanup_lookup new fs old) as [Heq|[_ ?]]; congruence.
  - intros Hempty. split_and!.
    + apply Upgrade_removes_old; [by eapply dirIsEmpty_dirExists|by left].
    + intros k Hk. by apply lookup_RemoveAll_below.
    + etrans; [apply RemoveAll_subseteq|apply cleanup_subseteq].
  - intros Hsuffix Hapart Hfull Hnew. split_and!.
    + apply Upgrade_removes_old; [by eapply dirIsEmpty_dirExists|by right].
    + intros k Hk. by apply lookup_RemoveAll_below.
    + intros k Hk. rewrite lookup_RemoveAll_other.
      * eapply only_tmp_apart; [apply only_tmp_cleanup|].
        eapply apart_below; [|done]. apply tmpName_apart; [done|].
        intros ->. destruct Hapart as [_ []]. apply prefix_nil.
      * by eapply apart_below_l; [apply apart_sym|].
Qed.

(** With the temporary root elsewhere, the run reaches the build with [old]
    as it was. *)
Lemma Upgrade_reaches_build old new fs :
  tmpSuffix ≠ "" → apart old (tmpName new) →
  dirIsEmpty old fs = inr false → dirExists new fs = false →
  Upgrade old new fs =
    match Upgrade_build old new (Upgrade_cleanup new fs) with
    | (Some e, fs') => (Some e, fs')
    | (None, fs') => Upgrade_commit old new fs'
    end.
Proof.
  intros Hsuffix Hold Hfull Hnew. unfold Upgrade.
  assert (dirIsEmpty old (Upgrade_cleanup new fs) = inr false) as Hfull'.
  { rewrite <-Hfull. apply dirIsEmpty_agree.
    - apply dirIsEmpty_false in Hfull as [-> _]. by eexists.
    - by apply (cleanup_below_old old).
    - intros name. apply (cleanup_below_old old); [done|]. by apply prefix_app_r. }
  rewrite (dirIsEmpty_dirExists _ _ _ Hfull'), Hfull'.
  by rewrite dirExists_cleanup_new, Hnew.
Qed.

(** C7: when [oldRoot] is a directory that is not empty, [newRoot] does not
    exist (so that the selection is reached) and no subdirectory of
    [oldRoot] holds a metadata file that decodes, [Upgrade] returns an error,
    and [newRoot] is not created.  [oldRoot] and the temporary root are
    unrelated paths. *)
Theorem Upgrade_without_records_fails old new fs :
  tmpSuffix ≠ "" → new ≠ [] → apart old (tmpName new) →
  dirIsEmpty old fs = inr false → dirExists new fs = false →
  (∀ m, ¬ legacy_record old fs m) →
  ∃ e fs', Upgrade old new fs = (Some e, fs')
    ∧ dirExists new fs' = false
    ∧ ∀ k, new `prefix_of` k → fs' !! k = fs !! k.
Proof.
  intros Hsuffix Hnew0 Hold Hfull Hnew Hnone.
  assert (is_Some (fs !! old)) as Hsome.
  { apply dirIsEmpty_false in Hfull as [-> _]. by eexists. }
  assert (∃ e fs', Upgrade old new fs = (Some e, fs')) as (e & fs' & Hup).
  { rewrite Upgrade_reaches_build by done. unfold Upgrade_build.
    destruct (os_MkdirAll _ _) as [[e|] fs1] eqn:Hm; [by eexists _, _|].
    rewrite (build_selection old new fs fs1) by done.
    destruct (getNewest7Snapshot_no_record old fs Hnone) as [->|[e ->]];
      by eexists _, _. }
  exists e, fs'. split; [done|].
  destruct (Upgrade_error_frame old new fs e fs') as [_ Hn]; [done..| |done|].
  { intros m Hm.
    destruct (getNewest7Snapshot_no_record old fs Hnone) as [?|[? ?]];
      congruence. }
  split; [|done]. unfold dirExists in *. rewrite Hn; done.
Qed.

(** A file name stays where it is joined. *)
Lemma relative_file_name id :
  elements id = [id] → id ≠ EmptyString → id ≠ "." → id ≠ ".." →
  relative id = Some [id].
Proof.
  unfold relative. intros -> ???. cbn [descend].
  by rewrite !decide_False by done.
Qed.

Lemma relative_v7StateFile : relative v7StateFile = Some [v7StateFile].
Proof. vm_compute. reflexivity. Qed.

(** An ID that does not lead out of the directory it is joined to gives a
    snapshot directory in the temporary root. *)
Lemma relative_inside new m rel :
  relative (ID m) = Some rel →
  tmpName new `prefix_of` newSnapshotPath new m.
Proof.
  intros Hr. unfold newSnapshotPath.
  rewrite (relative_Join _ _ _ Hr), <-app_assoc. by apply prefix_app_r.
Qed.

(** The construction, for an ID that does not lead out of the directory it
    is joined to. *)
Lemma build_ok old new fs fs' :
  apart old (tmpName new) → is_Some (fs !! old) →
  metaFileName ≠ baseSqliteFile →
  (∀ m, getNewest7Snapshot old fs = inr (Some m) → is_Some (relative (ID m))) →
  Upgrade_build old new (Upgrade_cleanup new fs) = (None, fs') →
  ∃ oldMeta rel state payload,
    getNewest7Snapshot old fs = inr (Some oldMeta)
    ∧ relative (ID oldMeta) = Some rel
    ∧ fs !! (old ++ rel ++ [v7StateFile]) = Some (File state)
    ∧ gzip_NewReader (drop 16 state) = GzReader payload None
    ∧ IsValidSQLite payload = true
    ∧ fs' !! (tmpName new ++ [generationsDir; firstGeneration] ++ rel ++ [metaFileName])
      = Some (File (json_Encode (mkMeta oldMeta true)))
    ∧ fs' !! (tmpName new ++ [generationsDir; firstGeneration; baseSqliteFile])
      = Some (File payload).
Proof.
  intros Hold Hsome Hlayout Hrel. unfold Upgrade_build.
  destruct (os_MkdirAll (tmpName new) _) as [[e|] fs1] eqn:Hm; [done|].
  rewrite (build_selection old new fs fs1) by done.
  assert (only_tmp (tmpName new) fs fs1) as Ho1.
  { eapply only_tmp_trans; [apply only_tmp_cleanup|].
    pose proof (only_tmp_MkdirAll (tmpName new) [] (Upgrade_cleanup new fs)) as Ho.
    by rewrite app_nil_r, Hm in Ho. }
  destruct (getNewest7Snapshot old fs) as [e|[oldMeta|]] eqn:Hsel; [done| |done].
  destruct (Hrel oldMeta eq_refl) as [rel Hr].
  rewrite (relative_Join _ _ _ Hr). unfold Upgrade_sqlite.
  rewrite (relative_Join_file _ _ _ _ Hr relative_v7StateFile).
  rewrite <-!app_assoc.
  pose proof (only_tmp_MkdirAll (tmpName new)
                ([generationsDir; firstGeneration] ++ rel) fs1) as Ho2.
  destruct (os_MkdirAll _ fs1) as [[e|] fs2]; [done|]. cbn [snd] in Ho2.
  unfold writeMeta. rewrite <-!app_assoc.
  pose proof (only_tmp_Create (tmpName new)
    ([generationsDir; firstGeneration] ++ rel ++ [metaFileName]) fs2) as Ho3.
  destruct (os_Create _ fs2) as [[e|] fs3]; [done|]. cbn [snd] in Ho3.
  set (metaPath := tmpName new ++ [generationsDir; firstGeneration] ++ rel ++ [metaFileName]) in *.
  set (basePath := tmpName new ++ [generationsDir; firstGeneration] ++ [baseSqliteFile]) in *.
  set (fs4 := <[metaPath := File (json_Encode (mkMeta oldMeta true))]> fs3).
  destruct (os_Create basePath fs4) as [[e|] fs5] eqn:Hc; [done|].
  apply Create_ok in Hc. subst fs5.
  unfold os_Open.
  destruct (<[basePath := File []]> fs4 !! (old ++ rel ++ [v7StateFile]))
    as [[state|]|] eqn:Hstate; [|done..].
  destruct (gzip_NewReader (drop 16 state)) as [e|payload rerr] eqn:Hgz; [done|].
  destruct rerr as [e|]; [done|].
  unfold IsValidSQLiteFile. rewrite lookup_insert_eq.
  destruct (IsValidSQLite payload) eqn:Hvalid; [|done]. cbn [negb].
  intros [= <-]. exists oldMeta, rel, state, payload. split_and!; try done.
  - rewrite <-Hstate. symmetry.
    assert (only_tmp (tmpName new) fs (<[basePath := File []]> fs4)) as Ho5.
    { eapply only_tmp_trans; [done|]. eapply only_tmp_trans; [done|].
      eapply only_tmp_trans; [done|]. eapply only_tmp_trans; apply only_tmp_insert. }
    eapply only_tmp_apart; [done|].
    eapply apart_below; [by apply apart_sym|]. by apply prefix_app_r.
  - assert (basePath ≠ metaPath) as Hne.
    { unfold metaPath, basePath. intros Heq%app_inv_head%app_inv_head.
      destruct rel as [|x [|y rel]]; cbn in Heq; congruence. }
    rewrite !lookup_insert_ne by done. apply lookup_insert_eq.
  - apply lookup_insert_eq.
Qed.

(** C8: a successful upgrade of an [oldRoot] that is not empty to a
    [newRoot] that did not exist leaves under [newRoot], in the first
    generation, a metadata file that is the JSON document of the selected
    legacy record with all its fields and the full flag set, and a base
    state file whose content is what the gzip decoder delivers for the
    selected snapshot's state blob without its first 16 bytes; that content
    has passed the validity check, which runs before the rename.  The ID of
    the selected record goes through [filepath.Join]: [rel] is the
    directory it names below the directory it is joined to, [[ID]] for an
    ID that is a file name and [[]] for the empty ID; the ID does not lead
    out of that directory through "..".  The roots are unrelated paths,
    and the metadata file and the base state file have different names. *)
Theorem Upgrade_builds_new_root old new fs fs' :
  tmpSuffix ≠ "" → apart old (tmpName new) → apart old new →
  metaFileName ≠ baseSqliteFile →
  dirIsEmpty old fs = inr false → dirExists new fs = false →
  (∀ m, getNewest7Snapshot old fs = inr (Some m) → is_Some (relative (ID m))) →
  Upgrade old new fs = (None, fs') →
  ∃ oldMeta rel state payload,
    getNewest7Snapshot old fs = inr (Some oldMeta)
    ∧ relative (ID oldMeta) = Some rel
    ∧ filepath_Join old [ID oldMeta; v7StateFile] = old ++ rel ++ [v7StateFile]
    ∧ fs !! (old ++ rel ++ [v7StateFile]) = Some (File state)
    ∧ gzip_NewReader (drop 16 state) = GzReader payload None
    ∧ IsValidSQLite payload = true
    ∧ fs' !! (new ++ [generationsDir; firstGeneration] ++ rel ++ [metaFileName])
      = Some (File (json_Encode (mkMeta oldMeta true)))
    ∧ fs' !! (new ++ [generationsDir; firstGeneration; baseSqliteFile])
      = Some (File payload).
Proof.
  intros Hsuffix Hold Hnew Hlayout Hfull Hnonew Hrel.
  rewrite Upgrade_reaches_build by done.
  destruct (Upgrade_build old new _) as [[e|] fs1] eqn:Hb; [done|].
  apply build_ok in Hb
    as (oldMeta & rel & state & payload & ? & Hr & ? & ? & ? & Hmeta & Hbase);
    [|done| |done..].
  2:{ apply dirIsEmpty_false in Hfull as [-> _]. by eexists. }
  intros Hc. exists oldMeta, rel, state, payload. split_and!; try done.
  - apply relative_Join_file; [done|apply relative_v7StateFile].
  - rewrite (commit_ok _ _ _ _ Hc); [done|].
    by eapply apart_below_l; [apply apart_sym|apply prefix_app_r].
  - rewrite (commit_ok _ _ _ _ Hc); [done|].
    by eapply apart_below_l; [apply apart_sym|apply prefix_app_r].
Qed.


(** C5: the selection returns a record exactly when [oldRoot] can be read,
    every metadata file in its subdirectories decodes and there is a legacy
    snapshot metadata record under it.  What it returns is one of these
    records, and every such record has a smaller or the same
    (term, index, id) tuple, terms compared first, then indexes, then the
    IDs byte by byte.  When the records are those with the tuples (1,5,a),
    (2,1,b) and (2,1,c), the one with ID c is returned; and of a slice of
    these three, in any order, [Newest] is the one with ID c.  [sort.Sort]
    is any function that sorts. *)
Theorem selection_is_greatest `{!SortLaws} old fs :
  let readable :=
    fs !! old = Some Dir
    ∧ ∀ name fh, fs !! (old ++ [name]) = Some Dir →
        fs !! (old ++ [name; metaFileName]) = Some fh →
        ∃ m, decode_meta fh = inr m in
  ((∃ m, getNewest7Snapshot old fs = inr (Some m))
   ↔ readable ∧ ∃ m, legacy_record old fs m)
  ∧ (∀ m, getNewest7Snapshot old fs = inr (Some m) →
       legacy_record old fs m
       ∧ ∀ m', legacy_record old fs m' →
           older m' m ∨ ordering_key m' = ordering_key m)
  ∧ (∀ a b c,
       (Term a, Index a, ID a) = (1%N, 5%N, "a") →
       (Term b, Index b, ID b) = (2%N, 1%N, "b") →
       (Term c, Index c, ID c) = (2%N, 1%N, "c") →
       ((readable ∧ ∀ m, legacy_record old fs m ↔ m = a ∨ m = b ∨ m = c) →
        getNewest7Snapshot old fs = inr (Some c))
       ∧ ∀ l, l ≡ₚ [a; b; c] → Newest l = Some c).
Proof.
  cbv zeta.
  assert ((∃ m, getNewest7Snapshot old fs = inr (Some m))
          ↔ (fs !! old = Some Dir
             ∧ ∀ name fh, fs !! (old ++ [name]) = Some Dir →
                 fs !! (old ++ [name; metaFileName]) = Some fh →
                 ∃ m, decode_meta fh = inr m)
            ∧ ∃ m, legacy_record old fs m) as Hexists.
  { split.
    - intros [m Hsel].
      assert (fs !! old = Some Dir) as Hold.
      { unfold getNewest7Snapshot in Hsel.
        destruct (os_ReadDir old fs) eqn:Hr; [done|]. by eapply ReadDir_is_dir. }
      split; [split; [done|]|].
      + intros name fh Hdir Hfh. destruct (decode_meta fh) as [e|m'] eqn:Hdec;
          [|by eexists].
        destruct (proj2 (getNewest7Snapshot_error_in_dir old fs Hold))
          as [e' He']; [by exists name, fh, e|congruence].
      + exists m. by apply getNewest7Snapshot_spec in Hsel as [? _].
    - intros [[Hold Hdec] [m Hm]].
      destruct (getNewest7Snapshot old fs) as [e|[m'|]] eqn:Hsel; [|by eexists|].
      + destruct (proj1 (getNewest7Snapshot_error_in_dir old fs Hold))
          as (name & fh & e' & Hdir & Hfh & Hbad); [by eexists|].
        destruct (Hdec name fh Hdir Hfh) as [? ?]. congruence.
      + apply getNewest7Snapshot_spec in Hsel. by destruct (Hsel m). }
  split; [done|]. split.
  - intros m Hsel. apply getNewest7Snapshot_spec in Hsel as [Hrec Hmax].
    split; [done|]. intros m' Hm'.
    destruct (older_total m' m) as [?|[?|?]]; [by left|by right|].
    by destruct (Hmax m' Hm').
  - intros a b c [= Ha1 Ha2 Ha3] [= Hb1 Hb2 Hb3] [= Hc1 Hc2 Hc3].
    assert (older a c) as Hac.
    { apply Less_older. unfold Less. by rewrite Ha1, Hc1. }
    assert (older b c) as Hbc.
    { apply Less_older. unfold Less. by rewrite Hb1, Hb2, Hb3, Hc1, Hc2, Hc3. }
    split.
    + intros [Hread Hrecords].
      destruct (proj2 Hexists) as [m Hsel].
      { split; [done|]. exists c. apply Hrecords. auto. }
      rewrite Hsel. apply getNewest7Snapshot_spec in Hsel as [Hrec Hmax].
      assert (legacy_record old fs c) as Hc by (apply Hrecords; auto).
      apply Hrecords in Hrec as [-> | [-> | ->]]; [| |done].
      * by destruct (Hmax c Hc).
      * by destruct (Hmax c Hc).
    + intros l Hl. destruct (Newest_is_Some l) as [m Hm].
      { intros ->. by apply Permutation_nil_cons in Hl. }
      rewrite Hm. apply Newest_greatest in Hm as [Hin Hmax].
      assert (c ∈ l) as Hc by (rewrite Hl, !elem_of_cons; auto).
      rewrite Hl in Hin. apply elem_of_cons in Hin as [->|Hin].
      { by destruct (Hmax c Hc). }
      apply elem_of_cons in Hin as [->|Hin].
      { by destruct (Hmax c Hc). }
      apply list_elem_of_singleton in Hin as ->. done.
Qed.

End package_facts.

Section insertion_sort_facts.
Import snapshot example.

Lemma insert_left_Permutation {A} (less : A → A → bool) x l :
  insert_left less x l ≡ₚ x :: l.
Proof.
  induction l as [|y l IH]; cbn; [done|].
  destruct (less x y); [|done]. rewrite IH. apply Permutation_swap.
Qed.

Lemma insertion_sort_Permutation {A} (less : A → A → bool) l :
  insertion_sort less l ≡ₚ l.
Proof.
  unfold insertion_sort. rewrite reverse_Permutation.
  assert (∀ acc, foldl (λ acc x, insert_left less x acc) acc l ≡ₚ acc ++ l) as Hf.
  { induction l as [|x l IH]; intros acc; cbn.
    - by rewrite app_nil_r.
    - rewrite IH, insert_left_Permutation. cbn. apply Permutation_middle. }
  apply Hf.
Qed.

Lemma insert_left_Sorted x l :
  Sorted (λ a b, Less a b = false) l →
  Sorted (λ a b, Less a b = false) (insert_left Less x l).
Proof.
  induction 1 as [|y l Hl IH Hy]; cbn.
  - by repeat constructor.
  - destruct (Less x y) eqn:Hxy.
    + constructor; [done|].
      destruct Hy as [|z l Hyz]; cbn.
      * constructor. destruct (not_Less_total x y); congruence.
      * destruct (Less x z); constructor; [done|].
        destruct (not_Less_total x y); congruence.
    + constructor; [by constructor|]. by constructor.
Qed.

#[local] Instance not_Less_flip_trans : Transitive (λ a b, Less b a = false).
Proof. intros a b c. apply not_Less_trans. Qed.

Lemma insertion_sort_laws : @SortLaws library.
Proof.
  split; cbn.
  - apply insertion_sort_Permutation.
  - intros l. apply Sorted_StronglySorted; [apply _|].
    unfold insertion_sort.
    apply (Sorted_reverse (λ a b, Less a b = false)).
    generalize (@nil SnapshotMeta) (Sorted_nil (λ a b, Less a b = false)).
    induction l as [|x l IH]; intros acc Hacc; cbn; [done|].
    apply IH. by apply insert_left_Sorted.
Qed.

End insertion_sort_facts.

(** *** The upgrade on examples *)

Section snapshot_examples.
Import snapshot example.

Lemma roots_apart : apart old_root new_root ∧ apart old_root (tmpName new_root).
Proof. unfold apart. split; by_evaluation. Qed.

(** The record of the snapshot directory [c] of [three_snapshots]. *)
Definition record_c : SnapshotMeta := mkSnapshotMeta 1 "c" 1 2 [] [] 0 0.

(** The state blob is cut off: the upgrade fails and the roots are as they
    were. *)
Lemma Upgrade_failure_leaves_roots_witness :
  let r := Upgrade old_root new_root truncated_blob in
  is_Some r.1
  ∧ (∀ k, old_root `prefix_of` k → r.2 !! k = truncated_blob !! k)
  ∧ (∀ k, new_root `prefix_of` k → r.2 !! k = truncated_blob !! k)
  ∧ Upgrade old_root new_root r.2
    = Upgrade old_root new_root (Upgrade_cleanup new_root r.2).
Proof.
  cbv zeta.
  assert (∀ m, getNewest7Snapshot old_root truncated_blob = inr (Some m) →
            tmpName new_root `prefix_of` newSnapshotPath new_root m) as Hin.
  { intros m Hm. vm_compute in Hm. injection Hm as <-. by_evaluation. }
  destruct (Upgrade old_root new_root truncated_blob) as [[e|] fs'] eqn:Hup.
  - destruct (Upgrade_failure_leaves_roots old_root new_root truncated_blob e fs')
      as (Ho & Hn & _ & _ & Hnext & _);
      [done|done|apply roots_apart|exact Hin|done|].
    split; [by eexists|]. split; [assumption|]. split; assumption.
  - exfalso. apply (f_equal fst) in Hup. vm_compute in Hup. discriminate Hup.
Defined.

(** The ID of the only legacy record is "../../../rsnapshots".  The
    snapshot directory is then the new root itself: [Upgrade] creates it
    and writes a metadata file into it, fails to create the base state
    file in the first generation, which nobody has made, and returns that
    error, from before the rename.  The new root now exists; the next call
    finds it and removes the old root. *)
Lemma Upgrade_escaping_id_creates_new_root :
  let r := Upgrade old_root new_root escaping_id in
  r.1 = Some (Errorf "failed to create new SQLite file" ErrNotExist)
  ∧ (Upgrade_build old_root new_root (Upgrade_cleanup new_root escaping_id)).1 = r.1
  ∧ escaping_id !! new_root = None
  ∧ r.2 !! new_root = Some Dir
  ∧ is_Some (r.2 !! (new_root ++ ["meta.json"]))
  ∧ (Upgrade old_root new_root r.2).1 = None
  ∧ (Upgrade old_root new_root r.2).2 !! old_root = None
  ∧ ¬ (∀ e fs',
         Upgrade old_root new_root escaping_id = (Some e, fs') →
         ∀ k, new_root `prefix_of` k → fs' !! k = escaping_id !! k).
Proof.
  cbv zeta.
  assert ((Upgrade old_root new_root escaping_id).2 !! new_root = Some Dir)
    as Hnew by (vm_compute; reflexivity).
  assert ((Upgrade old_root new_root escaping_id).1
          = Some (Errorf "failed to create new SQLite file" ErrNotExist))
    as Herr by (vm_compute; reflexivity).
  split; [exact Herr|]. split; [vm_compute; reflexivity|].
  split; [vm_compute; reflexivity|]. split; [exact Hnew|].
  split; [vm_compute; by eexists|]. split; [vm_compute; reflexivity|].
  split; [vm_compute; reflexivity|].
  intros Hclaim.
  destruct (Upgrade old_root new_root escaping_id) as [[e|] fs'] eqn:Hup;
    [|discriminate Herr].
  cbn [fst snd] in Hnew.
  specialize (Hclaim e fs' eq_refl new_root (reflexivity _)).
  rewrite Hnew in Hclaim. discriminate Hclaim.
Qed.

(** Of the three legacy snapshots, [c] is selected. *)
Lemma selection_is_greatest_witness :
  getNewest7Snapshot old_root three_snapshots = inr (Some record_c)
  ∧ legacy_record old_root three_snapshots record_c
  ∧ ∀ m', legacy_record old_root three_snapshots m' →
      older m' record_c ∨ ordering_key m' = ordering_key record_c.
Proof.
  assert (getNewest7Snapshot old_root three_snapshots = inr (Some record_c))
    as Hsel by (vm_compute; reflexivity).
  split; [exact Hsel|].
  exact (proj1 (proj2 (@selection_is_greatest layout library insertion_sort_laws
                         old_root three_snapshots)) record_c Hsel).
Defined.

(** No old root, an empty old root, and an old root beside a new one. *)
Lemma Upgrade_trivial_cases_witness :
  Upgrade old_root new_root no_old = (None, Upgrade_cleanup new_root no_old)
  ∧ Upgrade old_root new_root empty_old
    = (None, os_RemoveAll old_root (Upgrade_cleanup new_root empty_old))
  ∧ (Upgrade old_root new_root already_upgraded
     = (None, os_RemoveAll old_root (Upgrade_cleanup new_root already_upgraded))
     ∧ ∀ k, new_root `prefix_of` k →
         os_RemoveAll old_root (Upgrade_cleanup new_root already_upgraded) !! k
         = already_upgraded !! k).
Proof.
  split; [|split].
  - apply (proj1 (Upgrade_trivial_cases old_root new_root no_old)).
    vm_compute. reflexivity.
  - apply (proj1 (proj2 (Upgrade_trivial_cases old_root new_root empty_old))).
    vm_compute. reflexivity.
  - assert (tmpSuffix ≠ "") as Hsuffix by done.
    assert (dirIsEmpty old_root already_upgraded = inr false) as Hfull
      by (vm_compute; reflexivity).
    assert (dirExists new_root already_upgraded = true) as Hnew
      by (vm_compute; reflexivity).
    destruct (proj2 (proj2 (Upgrade_trivial_cases old_root new_root already_upgraded))
                Hsuffix (proj1 roots_apart) Hfull Hnew) as (Hup & _ & Hsame).
    split; assumption.
Defined.

Lemma no_records_has_none m : ¬ legacy_record old_root no_records m.
Proof.
  intros (name & data & Hdir & Hmeta & _).
  assert (name = "a") as ->.
  { destruct (decide (name = "a")) as [|Hne]; [done|]. exfalso.
    unfold no_records in Hdir. cbn [list_to_map foldr uncurry] in Hdir.
    rewrite !lookup_insert_ne in Hdir; [by rewrite lookup_empty in Hdir|..];
      unfold old_root; cbn; congruence. }
  vm_compute in Hmeta. discriminate Hmeta.
Qed.

(** An old root without any metadata file: the upgrade fails. *)
Lemma Upgrade_without_records_fails_witness :
  ∃ e fs', Upgrade old_root new_root no_records = (Some e, fs')
    ∧ dirExists new_root fs' = false
    ∧ ∀ k, new_root `prefix_of` k → fs' !! k = no_records !! k.
Proof.
  apply (Upgrade_without_records_fails old_root new_root no_records).
  - done.
  - done.
  - apply roots_apart.
  - vm_compute. reflexivity.
  - vm_compute. reflexivity.
  - apply no_records_has_none.
Defined.

(** The three legacy snapshots are upgraded: the new root holds the
    metadata of [c], marked full, in the directory [c] of the first
    generation, and the database of its state blob.  And a record with the
    empty ID is upgraded: its metadata file lies in the first generation
    itself, and the state blob is read from the old root itself. *)
Lemma Upgrade_builds_new_root_witness :
  (∃ state payload,
     three_snapshots !! (old_root ++ ["c"; "state.bin"]) = Some (File state)
     ∧ gzip_NewReader (drop 16 state) = GzReader payload None
     ∧ IsValidSQLite payload = true
     ∧ (Upgrade old_root new_root three_snapshots).2
         !! (new_root ++ ["generations"; "0000000001"; "c"; "meta.json"])
       = Some (File (json_Encode (mkMeta record_c true)))
     ∧ (Upgrade old_root new_root three_snapshots).2
         !! (new_root ++ ["generations"; "0000000001"; "base.sqlite"])
       = Some (File payload))
  ∧ (∃ oldMeta state payload,
       ID oldMeta = EmptyString
       ∧ empty_id !! (old_root ++ ["state.bin"]) = Some (File state)
       ∧ gzip_NewReader (drop 16 state) = GzReader payload None
       ∧ IsValidSQLite payload = true
       ∧ (Upgrade old_root new_root empty_id).2
           !! (new_root ++ ["generations"; "0000000001"; "meta.json"])
         = Some (File (json_Encode (mkMeta oldMeta true)))
       ∧ (Upgrade old_root new_root empty_id).2
           !! (new_root ++ ["generations"; "0000000001"; "base.sqlite"])
         = Some (File payload)).
Proof.
  assert (tmpSuffix ≠ EmptyString) as Hsuffix by done.
  assert (metaFileName ≠ baseSqliteFile) as Hlayout by done.
  split.
  - assert (∀ m, getNewest7Snapshot old_root three_snapshots = inr (Some m) →
              is_Some (relative (ID m))) as Hrel.
    { intros m Hm. vm_compute in Hm. injection Hm as <-. vm_compute. by eexists. }
    assert (dirIsEmpty old_root three_snapshots = inr false) as Hfull
      by (vm_compute; reflexivity).
    assert (dirExists new_root three_snapshots = false) as Hnonew
      by (vm_compute; reflexivity).
    destruct (Upgrade old_root new_root three_snapshots) as [[e|] fs'] eqn:Hup.
    { exfalso. apply (f_equal fst) in Hup. vm_compute in Hup. discriminate Hup. }
    destruct (Upgrade_builds_new_root old_root new_root three_snapshots fs'
                Hsuffix (proj2 roots_apart) (proj1 roots_apart) Hlayout
                Hfull Hnonew Hrel Hup)
      as (oldMeta & rel & state & payload & Hsel & Hr & _ & Hst & Hgz & Hv & Hm & Hb).
    vm_compute in Hsel. injection Hsel as <-.
    vm_compute in Hr. injection Hr as <-.
    exists state, payload. split_and!; assumption.
  - assert (∀ m, getNewest7Snapshot old_root empty_id = inr (Some m) →
              is_Some (relative (ID m))) as Hrel.
    { intros m Hm. vm_compute in Hm. injection Hm as <-. vm_compute. by eexists. }
    assert (dirIsEmpty old_root empty_id = inr false) as Hfull
      by (vm_compute; reflexivity).
    assert (dirExists new_root empty_id = false) as Hnonew
      by (vm_compute; reflexivity).
    destruct (Upgrade old_root new_root empty_id) as [[e|] fs'] eqn:Hup.
    { exfalso. apply (f_equal fst) in Hup. vm_compute in Hup. discriminate Hup. }
    destruct (Upgrade_builds_new_root old_root new_root empty_id fs'
                Hsuffix (proj2 roots_apart) (proj1 roots_apart) Hlayout
                Hfull Hnonew Hrel Hup)
      as (oldMeta & rel & state & payload & Hsel & Hr & _ & Hst & Hgz & Hv & Hm & Hb).
    vm_compute in Hsel. injection Hsel as <-.
    vm_compute in Hr. injection Hr as <-.
    eexists _, state, payload. split_and!; [|exact Hst|exact Hgz|exact Hv|exact Hm|exact Hb].
    reflexivity.
Defined.

End snapshot_examples.

(** * Further properties *)

(** ** More on the restore downloader *)

Section restore_more.
Import restore.
Context `{Gzip}.

(** X1: what [isGzip] answers.  On an empty file it is the error [io.EOF];
    on any other file it is no error, and true exactly when the file begins
    with the three bytes 1f 8b 08.  The content of the file is not touched,
    and where the read position was before the call makes no difference. *)
Theorem isGzip_answer data pos :
  (isGzip (mkRS data pos)).1
    = (if decide (data = []) then (false, Some EOF)
       else (bool_decide (take 3 data = gzipMagic), None))
  ∧ rs_data (isGzip (mkRS data pos)).2 = data
  ∧ isGzip (mkRS data pos) = isGzip (mkRS data 0).
Proof.
  destruct (decide (data = [])) as [->|Hne]; [done|].
  destruct (decide (3 ≤ length data)%nat) as [Hlen|Hlen].
  - rewrite !isGzip_long by done. cbn [fst snd rs_data].
    split; [|done]. f_equal. apply bool_decide_ext. split; congruence.
  - assert (0 < length data < 3)%nat as Hshort.
    { destruct data; [done|]. cbn in *. lia. }
    rewrite !isGzip_short by done. cbn [fst snd rs_data].
    split; [|done]. rewrite bool_decide_eq_false_2; [done|].
    intros Heq%(f_equal length). rewrite length_take in Heq.
    change (length gzipMagic) with 3%nat in Heq. lia.
Qed.

Lemma Writer_Write_appends w p :
  written w `prefix_of` written (Writer_Write w p).2
  ∧ ∃ q, q `prefix_of` p ∧ written (Writer_Write w p).2 = written w ++ q.
Proof.
  unfold Writer_Write. destruct (room w) as [k|]; [case_decide|]; cbn.
  - split; [by apply prefix_app_r|]. by exists p.
  - split; [by apply prefix_app_r|]. exists (take k p). split; [|done].
    apply prefix_take.
  - split; [by apply prefix_app_r|]. by exists p.
Qed.

Lemma io_Copy_appends w out rerr :
  ∃ q, q `prefix_of` out ∧ written (io_Copy w out rerr).2 = written w ++ q.
Proof.
  unfold io_Copy. destruct (Writer_Write_appends w out) as [_ (q & Hq & Hw)].
  destruct (Writer_Write w out) as [werr w']. by exists q.
Qed.

(** X3: [Do] only ever appends to the destination: what the destination
    held before the call is a prefix of what it holds after it, on every
    path. *)
Theorem Do_only_appends client w pick s :
  written w `prefix_of` written (Do client w pick s).1.2.
Proof.
  unfold Do. destruct (os_CreateTemp pick (fs s)) as [e|[name dir]]; [done|].
  unfold Do_staged.
  destruct (run_Download client (mkCW name 0) dir) as [[err cw] dir'].
  destruct err; [done|].
  destruct (isGzip _) as [[compressed err] f].
  destruct err; [done|]. destruct compressed.
  - destruct (gzip_NewReader _) as [e|out rerr]; [done|].
    destruct (io_Copy_appends w out rerr) as (q & _ & Hq).
    destruct (io_Copy w out rerr) as [[e|] w']; cbn in *; rewrite Hq;
      by apply prefix_app_r.
  - destruct (io_Copy_appends w (unread f) None) as (q & _ & Hq).
    destruct (io_Copy w (unread f) None) as [[e|] w']; cbn in *; rewrite Hq;
      by apply prefix_app_r.
Qed.

(** X2: the errors of [os.CreateTemp] and of the client's [Download] come
    back from [Do] as they are, not wrapped, and the destination is not
    written to. *)
Theorem Do_passes_early_errors client w pick s :
  (∀ e, os_CreateTemp pick (fs s) = inl e →
     Do client w pick s
     = (Some e, w, mkState (fs s) (stats_Add numDownloadsFail 1 (stats s))))
  ∧ (∀ name dir e,
       os_CreateTemp pick (fs s) = inr (name, dir) →
       (run_Download client (mkCW name 0) dir).1.1 = Some e →
       (Do client w pick s).1 = (Some e, w)).
Proof.
  split.
  - intros e Hc. unfold Do. by rewrite Hc.
  - intros name dir e Hc Hrun. unfold Do, Do_staged. rewrite Hc.
    destruct (run_Download client (mkCW name 0) dir) as [[err cw] dir'].
    cbn in Hrun. by subst err.
Qed.

(** X7: over a whole download the counting writer adds up what the
    wrapped [WriteAt] returned: while the sum stays below 2^63 its count is
    its count at the start plus the bytes written, with no wrap-around. *)
Theorem countingWriterAt_counts_bytes d : ∀ cw dir,
  0 ≤ count cw →
  count cw + foldr Z.add 0 (write_results d (writerAt cw) dir) < 2 ^ 63 →
  count (run_Download d cw dir).1.2
  = count cw + foldr Z.add 0 (write_results d (writerAt cw) dir).
Proof.
  induction d as [err|p off next IH]; intros cw dir Hc Hsum.
  - cbn. lia.
  - cbn in *. unfold countingWriterAt_WriteAt.
    pose proof (File_WriteAt_nonneg (writerAt cw) p off dir) as Hn.
    destruct (File_WriteAt (writerAt cw) p off dir) as [[n e] dir'].
    cbn in *.
    pose proof (write_results_nonneg (next n e) (writerAt cw) dir') as Hrest.
    rewrite IH; cbn; rewrite wrap64_small by lia; lia.
Qed.

(** X8: after [ResetStats], whatever the map held, one call of [Do] leaves
    the counters at (1, 0, bytes written) when it returns nil and at
    (0, 1, 0) when it returns an error. *)
Theorem Do_after_ResetStats client w pick dir0 m :
  let s := mkState dir0 (ResetStats m) in
  bytes_written client pick s < 2 ^ 63 →
  let '(err, _, s') := Do client w pick s in
  (counter (stats s') numDownloadsOK, counter (stats s') numDownloadsFail,
   counter (stats s') numDownloadBytes)
  = match err with
    | None => (1, 0, bytes_written client pick s)
    | Some _ => (0, 1, 0)
    end.
Proof.
  intros s Hb. pose proof (Do_stats client w pick s) as Hs.
  assert (0 ≤ bytes_written client pick s).
  { unfold bytes_written. destruct (os_CreateTemp _ _) as [|[name dir]]; [done|].
    apply write_results_nonneg. }
  destruct (Do client w pick s) as [[err w'] s']. cbn [fst snd] in Hs.
  rewrite Hs. destruct err as [e|].
  - rewrite counter_stats_Add_eq, !counter_stats_Add_ne by done. done.
  - rewrite counter_stats_Add_eq, !counter_stats_Add_ne by done.
    rewrite counter_stats_Add_eq, !counter_stats_Add_ne by done.
    rewrite <-(wrap64_add_r _ (final_count client pick s)).
    rewrite final_count_bytes_written, wrap64_add_r.
    change (counter (stats s) numDownloadsOK) with 0.
    change (counter (stats s) numDownloadsFail) with 0.
    change (counter (stats s) numDownloadBytes) with 0.
    rewrite !wrap64_small by lia. done.
Qed.

(** X5: a staged file that begins with the marker goes through the gzip
    reader.  An error of [gzip.NewReader] comes back as it is and nothing is
    delivered; an error in the middle of the stream comes back wrapped in
    "failed to decompress data", after the destination has received what
    was decoded before it; without an error the decoded bytes are delivered. *)
Theorem Do_gzip_outcomes client w pick s name dir cw dir' S :
  os_CreateTemp pick (fs s) = inr (name, dir) →
  room w = None →
  run_Download client (mkCW name 0) dir = (None, cw, dir') →
  dir' !! name = Some S →
  take 3 S = gzipMagic →
  (Do client w pick s).1
  = match gzip_NewReader S with
    | GzHeaderError e => (Some e, w)
    | GzReader out (Some e) =>
        (Some (Errorf "failed to decompress data" e),
         mkWriter (written w ++ out) None)
    | GzReader out None => (None, mkWriter (written w ++ out) None)
    end.
Proof.
  intros Hc Hw Hrun HS Hmagic. unfold Do, Do_staged. rewrite Hc, Hrun, HS.
  cbn [default from_option].
  assert (3 ≤ length S)%nat as Hlen.
  { apply (f_equal length) in Hmagic. rewrite length_take in Hmagic.
    change (length gzipMagic) with 3%nat in Hmagic. lia. }
  rewrite isGzip_long by done. rewrite bool_decide_eq_true_2 by done.
  unfold unread. cbn [rs_pos rs_data]. rewrite drop_0. unfold id.
  destruct (gzip_NewReader S) as [e|out rerr]; [done|].
  unfold io_Copy, Writer_Write. rewrite Hw. by destruct rerr.
Qed.

(** X6: a destination that refuses bytes.  When the staged file does not
    begin with the marker and the destination takes only [k] bytes, fewer
    than the file has, [Do] returns the write error wrapped in "failed to
    write data", and the destination has received the first [k] bytes. *)
Theorem Do_destination_failure client w pick s name dir cw dir' S k :
  os_CreateTemp pick (fs s) = inr (name, dir) →
  run_Download client (mkCW name 0) dir = (None, cw, dir') →
  dir' !! name = Some S →
  (3 ≤ length S)%nat → take 3 S ≠ gzipMagic →
  room w = Some k → (k < length S)%nat →
  (Do client w pick s).1
  = (Some (Errorf "failed to write data" ErrShortWrite),
     mkWriter (written w ++ take k S) (Some 0%nat)).
Proof.
  intros Hc Hrun HS Hlen Hraw Hw Hk. unfold Do, Do_staged. rewrite Hc, Hrun, HS.
  cbn [default from_option].
  rewrite isGzip_long by done.
  rewrite bool_decide_eq_false_2 by (intros Heq; by apply Hraw).
  unfold unread. cbn [rs_pos rs_data]. rewrite drop_0. unfold id.
  unfold io_Copy, Writer_Write. rewrite Hw.
  rewrite decide_False by lia. done.
Qed.

End restore_more.

(** ** More on raftMetaSlice *)

Section slice_facts.
Import snapshot.

Lemma at_index_Some {A} (s : list A) i x :
  at_index s i = Some x ↔ 0 ≤ i ∧ s !! Z.to_nat i = Some x.
Proof.
  unfold at_index. destruct (Z.ltb_spec i 0); [|by intuition lia].
  split; [done|]. intros [? _]. lia.
Qed.

Lemma at_index_is_Some {A} (s : list A) i :
  is_Some (at_index s i) ↔ 0 ≤ i < Z.of_nat (length s).
Proof.
  unfold is_Some. setoid_rewrite at_index_Some. split.
  - intros (x & ? & Hx%lookup_lt_Some). lia.
  - intros [? ?]. destruct (lookup_lt_is_Some_2 s (Z.to_nat i)) as [x Hx]; [lia|].
    by exists x.
Qed.

(** X9: [Less] is a strict total order on (term, index, ID): nothing is
    less than itself, two records are never less than each other, it is
    transitive, and two records neither of which is less than the other
    have the same term, index and ID. *)
Theorem Less_strict_total_order :
  (∀ a, Less a a = false)
  ∧ (∀ a b, Less a b = true → Less b a = false)
  ∧ (∀ a b c, Less a b = true → Less b c = true → Less a c = true)
  ∧ (∀ a b, Less a b = false → Less b a = false →
       (Term a, Index a, ID a) = (Term b, Index b, ID b)).
Proof.
  split_and!.
  - intros a. apply not_true_iff_false. rewrite Less_older. apply older_irrefl.
  - intros a b Hab. apply not_true_iff_false. rewrite Less_older in *.
    intros Hba. by eapply older_irrefl, older_trans.
  - intros a b c. rewrite !Less_older. apply older_trans.
  - intros a b. unfold Less.
    destruct (N.eqb_spec (Term a) (Term b)) as [Ht|Ht]; cbn.
    + rewrite (N.eqb_sym (Term b)), (proj2 (N.eqb_eq _ _) Ht). cbn.
      destruct (N.eqb_spec (Index a) (Index b)) as [Hi|Hi]; cbn.
      * rewrite (N.eqb_sym (Index b)), (proj2 (N.eqb_eq _ _) Hi). cbn.
        unfold String.ltb. rewrite (String.compare_antisym (ID b) (ID a)).
        destruct (String.compare (ID a) (ID b)) eqn:Hc; cbn; intros ??; try done.
        apply String.compare_eq_iff in Hc. congruence.
      * rewrite (N.eqb_sym (Index b)), (proj2 (N.eqb_neq _ _) Hi). cbn.
        rewrite !N.ltb_ge. lia.
    + rewrite (N.eqb_sym (Term b)), (proj2 (N.eqb_neq _ _) Ht). cbn.
      rewrite !N.ltb_ge. lia.
Qed.

(** X10: a [Swap] that does not panic permutes the slice and keeps its
    length; the two elements change places and every other element stays;
    swapping again gives the slice back; and [Less(i, j)] after the swap is
    [Less(j, i)] before it. *)
Theorem Swap_exchanges s i j s' :
  Swap s i j = Some s' →
  s' ≡ₚ s ∧ Len s' = Len s
  ∧ at_index s' i = at_index s j ∧ at_index s' j = at_index s i
  ∧ (∀ k, k ≠ i → k ≠ j → at_index s' k = at_index s k)
  ∧ Swap s' i j = Some s
  ∧ Less_at s' i j = Less_at s j i.
Proof.
  unfold Swap. destruct (at_index s i) as [a|] eqn:Ha; [|done].
  destruct (at_index s j) as [b|] eqn:Hb; [|done]. cbn. intros [= <-].
  apply at_index_Some in Ha as [Hi0 Ha]. apply at_index_Some in Hb as [Hj0 Hb].
  pose proof (lookup_lt_Some _ _ _ Ha) as Hil.
  pose proof (lookup_lt_Some _ _ _ Hb) as Hjl.
  assert (at_index (<[Z.to_nat j:=a]> (<[Z.to_nat i:=b]> s)) i = Some b) as Hi'.
  { apply at_index_Some. split; [done|].
    destruct (decide (Z.to_nat j = Z.to_nat i)) as [Heq|Hne].
    - rewrite Heq in *. rewrite list_lookup_insert_eq by (by rewrite length_insert).
      congruence.
    - rewrite list_lookup_insert_ne by done. by rewrite list_lookup_insert_eq. }
  assert (at_index (<[Z.to_nat j:=a]> (<[Z.to_nat i:=b]> s)) j = Some a) as Hj'.
  { apply at_index_Some. split; [done|].
    by rewrite list_lookup_insert_eq by (by rewrite length_insert). }
  assert (at_index s i = Some a) as Hai by (by apply at_index_Some).
  assert (at_index s j = Some b) as Hbj by (by apply at_index_Some).
  split_and!.
  - by apply Permutation_insert_swap.
  - unfold Len. by rewrite !length_insert.
  - congruence.
  - congruence.
  - intros k Hki Hkj. unfold at_index. destruct (Z.ltb_spec k 0); [done|].
    rewrite !list_lookup_insert_ne by lia. done.
  - rewrite Hi', Hj'. cbn. f_equal.
    apply list_eq. intros n.
    destruct (decide (n = Z.to_nat j)) as [->|Hnj].
    + rewrite list_lookup_insert_eq by (by rewrite !length_insert). done.
    + rewrite list_lookup_insert_ne by done.
      destruct (decide (n = Z.to_nat i)) as [->|Hni].
      * rewrite list_lookup_insert_eq by (by rewrite !length_insert). done.
      * by rewrite !list_lookup_insert_ne by done.
  - unfold Less_at. rewrite Hi', Hj', Hai, Hbj. done.
Qed.

(** X11: [Swap(i, j)] panics exactly when one of the two indexes is
    outside [0, Len()). *)
Theorem Swap_panics_out_of_range s i j :
  is_Some (Swap s i j) ↔ 0 ≤ i < Len s ∧ 0 ≤ j < Len s.
Proof.
  unfold Swap, Len. rewrite <-!at_index_is_Some. split.
  - intros [s' Hs]. by destruct (at_index s i), (at_index s j).
  - intros [[a ->] [b ->]]. by eexists.
Qed.

End slice_facts.

(** ** More on the selection and on Upgrade *)

Section package_more.
Import snapshot.
Context `{Layout, Library, Gzip}.
Implicit Types (fs : FS) (p q k old new : path).

(** X12: [Newest] does not depend on the order of the slice: two slices
    with the same elements give records with the same (term, index, id)
    tuple.  It returns nil only for the empty slice. *)
Theorem Newest_order_independent `{!SortLaws} l l' :
  l ≡ₚ l' →
  ordering_key <$> Newest l = ordering_key <$> Newest l'
  ∧ (Newest l = None ↔ l = []).
Proof.
  intros Hl. split.
  - destruct l as [|x l].
    { apply Permutation_nil in Hl. by subst l'. }
    destruct (Newest_is_Some (x :: l)) as [m Hm]; [done|].
    destruct (Newest_is_Some l') as [m' Hm'].
    { intros ->. by apply Permutation_nil_r in Hl. }
    rewrite Hm, Hm'. cbn. f_equal.
    apply Newest_greatest in Hm as [Hin Hmax].
    apply Newest_greatest in Hm' as [Hin' Hmax'].
    destruct (older_total m m') as [Ho|[?|Ho]]; [|done|].
    + destruct (Hmax m'); [by rewrite Hl|done].
    + destruct (Hmax' m); [by rewrite <-Hl|done].
  - split; [|by intros ->]. intros Hnone. destruct l as [|x l]; [done|].
    destruct (Newest_is_Some (x :: l)) as [m Hm]; [done|]. congruence.
Qed.

(** X13: [getNewest7Snapshot] returns an error exactly when the directory
    cannot be read (it is missing or not a directory) or one of its
    subdirectories has a metadata file that cannot be decoded: one bad
    metadata file fails the whole call, whatever the other snapshots are. *)
Theorem getNewest7Snapshot_fails_iff old fs :
  (∃ e, getNewest7Snapshot old fs = inl e) ↔
  fs !! old ≠ Some Dir
  ∨ ∃ name fh e, fs !! (old ++ [name]) = Some Dir
      ∧ fs !! (old ++ [name; metaFileName]) = Some fh
      ∧ decode_meta fh = inl e.
Proof.
  destruct (fs !! old) as [[data|]|] eqn:Hold.
  - unfold getNewest7Snapshot, os_ReadDir. rewrite Hold.
    split; [by left|]. by eexists.
  - rewrite (getNewest7Snapshot_error_in_dir old fs Hold). split; [by right|].
    intros [?|?]; done.
  - unfold getNewest7Snapshot, os_ReadDir. rewrite Hold.
    split; [by left|]. by eexists.
Qed.

(** X14: [getNewest7Snapshot] returns (nil, nil) exactly when the directory
    can be read and none of its subdirectories has a metadata file; plain
    files in the directory and subdirectories without a metadata file are
    skipped. *)
Theorem getNewest7Snapshot_none_iff `{!SortLaws} old fs :
  getNewest7Snapshot old fs = inr None ↔
  fs !! old = Some Dir
  ∧ ∀ name, fs !! (old ++ [name]) = Some Dir →
      fs !! (old ++ [name; metaFileName]) = None.
Proof.
  split.
  - intros Hsel. assert (fs !! old = Some Dir) as Hold.
    { unfold getNewest7Snapshot in Hsel.
      destruct (os_ReadDir old fs) eqn:Hr; [done|]. by eapply ReadDir_is_dir. }
    split; [done|]. intros name Hdir.
    destruct (fs !! (old ++ [name; metaFileName])) as [fh|] eqn:Hfh; [|done].
    exfalso. destruct (decode_meta fh) as [e|m] eqn:Hdec.
    + destruct (proj2 (getNewest7Snapshot_error_in_dir old fs Hold))
        as [e' He']; [by exists name, fh, e|congruence].
    + apply getNewest7Snapshot_spec in Hsel. apply (Hsel m).
      destruct fh as [data|]; [|done]. cbn in Hdec.
      destruct (json_Decode data) eqn:Hj; [|done]. injection Hdec as ->.
      by exists name, data.
  - intros [Hold Hnone].
    destruct (getNewest7Snapshot_no_record old fs) as [?|[e He]]; [|done|].
    + intros m (name & data & Hdir & Hfh & _). by rewrite Hnone in Hfh.
    + exfalso.
      destruct (proj1 (getNewest7Snapshot_error_in_dir old fs Hold))
        as (name & fh & e' & Hdir & Hfh & _); [by eexists|]. by rewrite Hnone in Hfh.
Qed.

(** X15: [dirIsEmpty] passes on the error of [os.ReadDir].  For a regular
    file it is ENOTDIR.  For a path that is not there, the first of its
    prefixes that is not a directory decides: ENOTDIR when that is a
    regular file, ENOENT when nothing is there.  For a directory there is
    no error, and the answer is true exactly when nothing is in it. *)
Theorem dirIsEmpty_answer p fs :
  match fs !! p with
  | Some Dir =>
      ∃ b, dirIsEmpty p fs = inr b
        ∧ (b = true ↔ ∀ name, fs !! (p ++ [name]) = None)
  | Some (File _) => dirIsEmpty p fs = inl ErrNotDir
  | None =>
      ∃ q, q `prefix_of` p
        ∧ (∀ q', q' `prefix_of` q → q' ≠ q → fs !! q' = Some Dir)
        ∧ match fs !! q with
          | Some (File _) => dirIsEmpty p fs = inl ErrNotDir
          | Some Dir => False
          | None => dirIsEmpty p fs = inl ErrNotExist
          end
  end.
Proof.
  destruct (fs !! p) as [[data|]|] eqn:Hp.
  - unfold dirIsEmpty, os_ReadDir. by rewrite Hp.
  - destruct (dirExists_dirIsEmpty p fs) as [b Hb].
    { unfold dirExists. by rewrite bool_decide_eq_true. }
    exists b. split; [done|]. destruct b.
    + apply dirIsEmpty_true in Hb as [_ Hnone]. done.
    + apply dirIsEmpty_false in Hb as (_ & name & n & Hn).
      split; [done|]. intros Hnone. by rewrite Hnone in Hn.
  - destruct (missing_spec fs p [] Hp) as (q & _ & Hq & Hdirs & Hwhat).
    exists q. split; [done|]. split.
    { intros q' ??. apply Hdirs; [apply prefix_nil|done..]. }
    unfold dirIsEmpty, os_ReadDir. rewrite Hp.
    cbn [app] in Hwhat.
    destruct (fs !! q) as [[d|]|]; [by rewrite Hwhat|done|by rewrite Hwhat].
Qed.

Lemma rekey_source p q : apart p q → rekey p q p = q.
Proof.
  intros Hpq. unfold rekey. rewrite decide_True by done.
  rewrite decide_True by done. by rewrite drop_all, app_nil_r.
Qed.

Lemma rekey_elsewhere p q k :
  ¬ p `prefix_of` k → ¬ q `prefix_of` k → rekey p q k = k.
Proof.
  intros Hp Hq. unfold rekey. case_decide; [|done]. by rewrite !decide_False.
Qed.

(** A rename that succeeds: the destination was free, and every path is
    what the path it came from was. *)
Lemma Rename_lookup p q fs fs' :
  os_Rename p q fs = (None, fs') →
  apart p q ∧ fs !! q = None ∧ ∀ k, fs' !! k = fs !! rekey p q k.
Proof.
  unfold os_Rename. destruct (fs !! p); [|done].
  case_decide as Hapart; [|done]. case_decide as Hfree; [|done].
  destruct (fs !! parent q) as [[?|]|]; [done| |done]. intros [= <-].
  split_and!; [done| |].
  - destruct (fs !! q) as [nq|] eqn:Hq; [|done].
    by destruct (Hfree q nq Hq).
  - intros k. rewrite <-(rekey_involutive p q k) at 1. apply lookup_kmap, _.
Qed.

(** What a successful run leaves: no temporary root and no old root. *)
Lemma Upgrade_ok_leaves old new fs fs' :
  Upgrade old new fs = (None, fs') →
  dirExists (tmpName new) fs' = false ∧ dirExists old fs' = false.
Proof.
  unfold Upgrade. pose proof (cleanup_no_tmp new fs) as Htmp.
  set (fs0 := Upgrade_cleanup new fs) in *.
  assert (∀ fs1, dirExists (tmpName new) fs1 = false →
            dirExists (tmpName new) (os_RemoveAll old fs1) = false
            ∧ dirExists old (os_RemoveAll old fs1) = false) as Hrm.
  { intros fs1 Hfs1. unfold dirExists in *. split.
    - destruct (decide (old `prefix_of` tmpName new)).
      + rewrite lookup_RemoveAll_below by done. by apply bool_decide_eq_false.
      + by rewrite lookup_RemoveAll_other.
    - rewrite lookup_RemoveAll_below by done. by apply bool_decide_eq_false. }
  destruct (dirExists old fs0) eqn:Hold; [|by intros [= <-]].
  destruct (dirIsEmpty old fs0) as [e|[|]]; [done|by intros [= <-]; apply Hrm|].
  destruct (dirExists new fs0); [by intros [= <-]; apply Hrm|].
  destruct (Upgrade_build old new fs0) as [[e|] fs1]; [done|].
  unfold Upgrade_commit.
  destruct (os_Rename (tmpName new) new fs1) as [[e|] fs2] eqn:Hr; [done|].
  cbn. intros [= <-]. apply Hrm.
  apply Rename_lookup in Hr as (Hapart & Hfree & Hr).
  unfold dirExists. rewrite Hr, rekey_source, Hfree by done.
  by apply bool_decide_eq_false.
Qed.

(** X16: [Upgrade] can be repeated: after a call that returned nil, a second
    call on the tree it left returns nil and changes nothing. *)
Theorem Upgrade_idempotent old new fs fs' :
  Upgrade old new fs = (None, fs') →
  Upgrade old new fs' = (None, fs').
Proof.
  intros [Htmp Hold]%Upgrade_ok_leaves.
  unfold Upgrade, Upgrade_cleanup. by rewrite Htmp, Hold.
Qed.

(** X17: whatever [Upgrade] returns, it changes nothing outside the old
    root, the new root, the temporary root and the path to the temporary
    root, when the snapshot directory of the record that the selection
    returns (its ID joined to the first generation of the temporary root)
    lies in the temporary root.  [oldRoot] and the temporary root are
    unrelated paths. *)
Theorem Upgrade_frame old new fs k :
  apart old (tmpName new) →
  (∀ m, getNewest7Snapshot old fs = inr (Some m) →
     tmpName new `prefix_of` newSnapshotPath new m) →
  ¬ old `prefix_of` k → ¬ new `prefix_of` k → apart (tmpName new) k →
  (Upgrade old new fs).2 !! k = fs !! k.
Proof.
  intros Hold Hin Hok Hnk Htk. unfold Upgrade.
  assert (Upgrade_cleanup new fs !! k = fs !! k) as Hk0.
  { eapply only_tmp_apart; [apply only_tmp_cleanup|done]. }
  rewrite dirExists_cleanup_old by done.
  destruct (dirExists old fs) eqn:Hd; [|done].
  apply bool_decide_eq_true in Hd.
  destruct (dirIsEmpty old _) as [e|[|]];
    [done|cbn; by rewrite lookup_RemoveAll_other|].
  destruct (dirExists new _); [cbn; by rewrite lookup_RemoveAll_other|].
  assert (only_tmp (tmpName new) fs
            (Upgrade_build old new (Upgrade_cleanup new fs)).2) as Hb.
  { apply only_tmp_build_after_cleanup; [done|by rewrite Hd|done]. }
  destruct (Upgrade_build old new _) as [[e|] fs1]; cbn [snd] in *.
  { by eapply only_tmp_apart. }
  assert (fs1 !! k = fs !! k) as Hk1 by (by eapply only_tmp_apart).
  unfold Upgrade_commit.
  destruct (os_Rename (tmpName new) new fs1) as [[e|] fs2] eqn:Hr; cbn.
  { apply Rename_error in Hr. by subst fs2. }
  apply Rename_lookup in Hr as (_ & _ & Hr).
  rewrite lookup_RemoveAll_other, Hr, rekey_elsewhere by (done || apply Htk). done.
Qed.

(** Whatever the ID of the selected record, a construction that succeeds
    leaves the temporary root a directory. *)
Lemma build_keeps_tmp old new fs fs' :
  Upgrade_build old new fs = (None, fs') → fs' !! tmpName new = Some Dir.
Proof.
  unfold Upgrade_build.
  destruct (os_MkdirAll (tmpName new) fs) as [[e|] fs1] eqn:Hm; [done|].
  apply MkdirAll_made in Hm.
  destruct (getNewest7Snapshot old fs1) as [e|[oldMeta|]]; [done| |done].
  set (snap := filepath_Join _ [ID oldMeta]).
  assert ((os_MkdirAll snap fs1).2 !! tmpName new = Some Dir) as Hm2.
  { destruct (MkdirAll_lookup snap fs1 (tmpName new)) as [->|(? & ? & _)];
      [done|congruence]. }
  destruct (os_MkdirAll snap fs1) as [[e|] fs2]; [done|]. cbn [snd] in Hm2.
  unfold writeMeta.
  destruct (os_Create (snap ++ [metaFileName]) fs2) as [[e|] fs3] eqn:Hc; [done|].
  assert (tmpName new ≠ snap ++ [metaFileName]) as Hmeta.
  { intros Heq. apply Create_not_dir in Hc. by rewrite <-Heq in Hc. }
  apply Create_ok in Hc. subst fs3.
  unfold Upgrade_sqlite.
  set (base := (tmpName new ++ [generationsDir; firstGeneration]) ++ [baseSqliteFile]).
  set (fs4 := <[snap ++ [metaFileName] := _]> (<[snap ++ [metaFileName] := _]> fs2)).
  assert (fs4 !! tmpName new = Some Dir) as Hfs4.
  { unfold fs4. by rewrite !lookup_insert_ne by done. }
  destruct (os_Create base fs4) as [[e|] fs5] eqn:Hc'; [done|].
  apply Create_ok in Hc'. subst fs5.
  assert (tmpName new ≠ base) as Hb.
  { unfold base. intros Heq%(f_equal length). rewrite !length_app in Heq.
    cbn in Heq. lia. }
  destruct (os_Open _ _) as [e|[state|]]; [done| |done].
  destruct (gzip_NewReader _) as [e|out [e|]]; [done..|].
  destruct (negb _); [done|]. intros [= <-].
  by rewrite !lookup_insert_ne by done.
Qed.

(** X18: when [Upgrade] returns nil for an old root that was a directory
    with something in it, the old root and all below it are gone, the new
    root is a directory, and no temporary root is left, whatever the ID of
    the selected record is.  The roots are unrelated paths. *)
Theorem Upgrade_replaces_old_by_new old new fs fs' :
  tmpSuffix ≠ "" → apart old new → apart old (tmpName new) →
  dirIsEmpty old fs = inr false →
  Upgrade old new fs = (None, fs') →
  (∀ k, old `prefix_of` k → fs' !! k = None)
  ∧ dirExists new fs' = true
  ∧ dirExists (tmpName new) fs' = false.
Proof.
  intros Hsuffix Hon Hot Hfull Hup.
  destruct (Upgrade_ok_leaves _ _ _ _ Hup) as [Htmp _].
  destruct (dirExists new fs) eqn:Hnew.
  - rewrite Upgrade_removes_old in Hup;
      [|by eapply dirIsEmpty_dirExists|by right].
    injection Hup as <-. split_and!; [|  |done].
    + intros k Hk. by apply lookup_RemoveAll_below.
    + pose proof (dirExists_cleanup_new new fs Hsuffix) as Hd. rewrite Hnew in Hd.
      unfold dirExists in *. by rewrite lookup_RemoveAll_other by apply Hon.
  - rewrite Upgrade_reaches_build in Hup by done.
    destruct (Upgrade_build old new _) as [[e|] fs1] eqn:Hb; [done|].
    apply build_keeps_tmp in Hb. split_and!; [| |done].
    + intros k Hk. unfold Upgrade_commit in Hup.
      destruct (os_Rename _ _ fs1) as [[e|] fs2]; [done|]. injection Hup as <-.
      by apply lookup_RemoveAll_below.
    + pose proof (commit_ok _ _ _ _ Hup []) as Hc. rewrite !app_nil_r in Hc.
      unfold dirExists. rewrite Hc, Hb by apply Hon. by apply bool_decide_eq_true.
Qed.

End package_more.

(** ** The further properties on examples *)

Section restore_more_examples.
Import restore example.

(** No temporary file can be created; and the client fails after one byte. *)
Lemma Do_passes_early_errors_witness :
  Do (client_of [x01]) sink None fresh
  = (Some ErrCreateTemp, sink,
     mkState (fs fresh) (stats_Add numDownloadsFail 1 (stats fresh)))
  ∧ (Do (failing_client [x01]) sink (Some "rqlite-downloader1") fresh).1
    = (Some (ErrClient "deadline exceeded"), sink).
Proof.
  split.
  - apply (proj1 (Do_passes_early_errors (client_of [x01]) sink None fresh)).
    reflexivity.
  - apply (proj2 (Do_passes_early_errors (failing_client [x01]) sink
                    (Some "rqlite-downloader1") fresh)
             "rqlite-downloader1" (<[("rqlite-downloader1" : string) := []]> ∅));
      reflexivity.
Defined.

(** "hi", delivered as it is, does not arrive. *)
Lemma Do_short_payload_lost_witness :
  (Do (client_of [x68; x69]) sink (Some "rqlite-downloader1") fresh).1
  = (None, mkWriter [] None).
Proof.
  apply (Do_short_payload_lost (client_of [x68; x69]) sink
           (Some "rqlite-downloader1") fresh "rqlite-downloader1"
           (<[("rqlite-downloader1" : string) := []]> ∅)
           (mkCW "rqlite-downloader1" 2)
           (<[("rqlite-downloader1" : string) := [x68; x69]]> ∅)
           [x68; x69]).
  - reflexivity.
  - reflexivity.
  - vm_compute. reflexivity.
  - vm_compute. reflexivity.
  - cbn. lia.
Defined.

(** A gzip member of "hi" is decoded, and the bare marker is refused by
    the gzip reader. *)
Lemma Do_gzip_outcomes_witness :
  (Do (client_of (gzip_stored [x68; x69])) sink (Some "rqlite-downloader1") fresh).1
  = (None, mkWriter [x68; x69] None)
  ∧ (Do (client_of [x1f; x8b; x08]) sink (Some "rqlite-downloader1") fresh).1
    = (Some ErrUnexpectedEOF, sink).
Proof.
  split.
  - etrans.
    + apply (Do_gzip_outcomes (client_of (gzip_stored [x68; x69])) sink
               (Some "rqlite-downloader1") fresh "rqlite-downloader1"
               (<[("rqlite-downloader1" : string) := []]> ∅)
               (mkCW "rqlite-downloader1" 25)
               (<[("rqlite-downloader1" : string) := gzip_stored [x68; x69]]> ∅)
               (gzip_stored [x68; x69]));
        [reflexivity|reflexivity|vm_compute; reflexivity..].
    + vm_compute. reflexivity.
  - etrans.
    + apply (Do_gzip_outcomes (client_of [x1f; x8b; x08]) sink
               (Some "rqlite-downloader1") fresh "rqlite-downloader1"
               (<[("rqlite-downloader1" : string) := []]> ∅)
               (mkCW "rqlite-downloader1" 3)
               (<[("rqlite-downloader1" : string) := [x1f; x8b; x08]]> ∅)
               [x1f; x8b; x08]);
        [reflexivity|reflexivity|vm_compute; reflexivity..].
    + vm_compute. reflexivity.
Defined.

(** "hi!" into a destination that takes two bytes. *)
Lemma Do_destination_failure_witness :
  (Do (client_of [x68; x69; x21]) (mkWriter [] (Some 2%nat))
     (Some "rqlite-downloader1") fresh).1
  = (Some (Errorf "failed to write data" ErrShortWrite),
     mkWriter [x68; x69] (Some 0%nat)).
Proof.
  apply (Do_destination_failure (client_of [x68; x69; x21])
           (mkWriter [] (Some 2%nat))
           (Some "rqlite-downloader1") fresh "rqlite-downloader1"
           (<[("rqlite-downloader1" : string) := []]> ∅)
           (mkCW "rqlite-downloader1" 3)
           (<[("rqlite-downloader1" : string) := [x68; x69; x21]]> ∅)
           [x68; x69; x21] 2%nat).
  - reflexivity.
  - vm_compute. reflexivity.
  - vm_compute. reflexivity.
  - cbn. lia.
  - by_evaluation.
  - reflexivity.
  - cbn. lia.
Defined.

(** Two writes, of one byte and of two: the count is 3. *)
Lemma countingWriterAt_counts_bytes_witness :
  count (run_Download
           (WriteAt [x68] 0 (λ _ _, WriteAt [x69; x21] 1 (λ _ err, Return err)))
           (mkCW "rqlite-downloader1" 0)
           (<[("rqlite-downloader1" : string) := []]> ∅)).1.2
  = 0 + 3.
Proof.
  apply (countingWriterAt_counts_bytes
           (WriteAt [x68] 0 (λ _ _, WriteAt [x69; x21] 1 (λ _ err, Return err)))
           (mkCW "rqlite-downloader1" 0)
           (<[("rqlite-downloader1" : string) := []]> ∅)).
  - cbn. lia.
  - vm_compute. reflexivity.
Defined.

(** Counters that were at 7 and 2 are reset, and "hi!" is downloaded. *)
Lemma Do_after_ResetStats_witness :
  let '(err, _, s') :=
    Do (client_of [x68; x69; x21]) sink (Some "rqlite-downloader1")
      (mkState ∅ (ResetStats (<[numDownloadsOK := 7]> (<[numDownloadsFail := 2]> ∅)))) in
  (counter (stats s') numDownloadsOK, counter (stats s') numDownloadsFail,
   counter (stats s') numDownloadBytes)
  = match err with None => (1, 0, 3) | Some _ => (0, 1, 0) end.
Proof.
  pose proof (Do_after_ResetStats (client_of [x68; x69; x21]) sink
                (Some "rqlite-downloader1") ∅
                (<[numDownloadsOK := 7]> (<[numDownloadsFail := 2]> ∅))) as Hdo.
  cbv zeta in Hdo.
  assert (bytes_written (client_of [x68; x69; x21]) (Some "rqlite-downloader1")
            (mkState ∅ (ResetStats (<[numDownloadsOK := 7]> (<[numDownloadsFail := 2]> ∅))))
          < 2 ^ 63) as Hb by (vm_compute; reflexivity).
  specialize (Hdo Hb).
  destruct (Do _ _ _ _) as [[err w'] s']. destruct err; exact Hdo.
Defined.

End restore_more_examples.

Section snapshot_more_examples.
Import snapshot example.

(** Below a state blob there is nothing to read, and that is ENOTDIR; in a
    directory that is not there it is ENOENT. *)
Lemma dirIsEmpty_below_a_file :
  dirIsEmpty (old_root ++ ["a"; "state.bin"; "x"]) no_records = inl ErrNotDir
  ∧ dirIsEmpty (old_root ++ ["b"; "x"]) no_records = inl ErrNotExist.
Proof. split; vm_compute; reflexivity. Qed.

(** The first and the last of three records change places. *)
Lemma Swap_exchanges_witness :
  let a := mkSnapshotMeta 1 "a" 5 1 [] [] 0 0 in
  let b := mkSnapshotMeta 1 "b" 1 2 [] [] 0 0 in
  let c := mkSnapshotMeta 1 "c" 1 2 [] [] 0 0 in
  [c; b; a] ≡ₚ [a; b; c] ∧ Len [c; b; a] = Len [a; b; c]
  ∧ at_index [c; b; a] 0 = at_index [a; b; c] 2
  ∧ at_index [c; b; a] 2 = at_index [a; b; c] 0
  ∧ (∀ k, k ≠ 0 → k ≠ 2 → at_index [c; b; a] k = at_index [a; b; c] k)
  ∧ Swap [c; b; a] 0 2 = Some [a; b; c]
  ∧ Less_at [c; b; a] 0 2 = Less_at [a; b; c] 2 0.
Proof.
  cbv zeta.
  apply (Swap_exchanges
           [mkSnapshotMeta 1 "a" 5 1 [] [] 0 0; mkSnapshotMeta 1 "b" 1 2 [] [] 0 0;
            mkSnapshotMeta 1 "c" 1 2 [] [] 0 0] 0 2).
  reflexivity.
Defined.

(** The three records in two orders, under Go's insertion sort. *)
Lemma Newest_order_independent_witness :
  let a := mkSnapshotMeta 1 "a" 5 1 [] [] 0 0 in
  let b := mkSnapshotMeta 1 "b" 1 2 [] [] 0 0 in
  let c := mkSnapshotMeta 1 "c" 1 2 [] [] 0 0 in
  ordering_key <$> Newest [a; b; c] = ordering_key <$> Newest [c; a; b]
  ∧ (Newest [a; b; c] = None ↔ [a; b; c] = []).
Proof.
  cbv zeta.
  apply (@Newest_order_independent library insertion_sort_laws).
  apply (Permutation_app_comm [_; _] [_]).
Defined.

(** [no_records] has a subdirectory and no metadata file. *)
Lemma getNewest7Snapshot_none_iff_witness :
  no_records !! old_root = Some Dir
  ∧ ∀ name, no_records !! (old_root ++ [name]) = Some Dir →
      no_records !! (old_root ++ [name; metaFileName]) = None.
Proof.
  apply (proj1 (@getNewest7Snapshot_none_iff layout library insertion_sort_laws
                  old_root no_records)).
  vm_compute. reflexivity.
Defined.

(** The upgrade of the three legacy snapshots, run a second time. *)
Lemma Upgrade_idempotent_witness :
  Upgrade old_root new_root (Upgrade old_root new_root three_snapshots).2
  = (None, (Upgrade old_root new_root three_snapshots).2).
Proof.
  destruct (Upgrade old_root new_root three_snapshots) as [[e|] fs'] eqn:Hup.
  - exfalso. apply (f_equal fst) in Hup. vm_compute in Hup. discriminate Hup.
  - apply (Upgrade_idempotent old_root new_root three_snapshots fs'). exact Hup.
Defined.

(** A file beside the roots is not touched. *)
Lemma Upgrade_frame_witness :
  (Upgrade old_root new_root
     (<[["data"; "raft.db"] := File [x01]]> three_snapshots)).2
    !! ["data"; "raft.db"]
  = <[["data"; "raft.db"] := File [x01]]> three_snapshots !! ["data"; "raft.db"].
Proof.
  apply (Upgrade_frame old_root new_root
           (<[["data"; "raft.db"] := File [x01]]> three_snapshots)
           ["data"; "raft.db"]).
  - apply roots_apart.
  - intros m Hm. vm_compute in Hm. injection Hm as <-. by_evaluation.
  - by_evaluation.
  - by_evaluation.
  - unfold apart. split; by_evaluation.
Defined.

(** After the upgrade of the three legacy snapshots. *)
Lemma Upgrade_replaces_old_by_new_witness :
  let fs' := (Upgrade old_root new_root three_snapshots).2 in
  (∀ k, old_root `prefix_of` k → fs' !! k = None)
  ∧ dirExists new_root fs' = true
  ∧ dirExists (tmpName new_root) fs' = false.
Proof.
  cbv zeta.
  destruct (Upgrade old_root new_root three_snapshots) as [[e|] fs'] eqn:Hup.
  - exfalso. apply (f_equal fst) in Hup. vm_compute in Hup. discriminate Hup.
  - apply (Upgrade_replaces_old_by_new old_root new_root three_snapshots fs').
    + done.
    + apply roots_apart.
    + apply roots_apart.
    + vm_compute. reflexivity.
    + exact Hup.
Defined.

End snapshot_more_examples.
